(** * Net-Echt-Bingo: pool sizing, card assembly and PDF page layout

    A shallow embedding of the algorithmic parts of the bingo generator
    (the [App] component and the subject-detection service) together
    with the properties its specification states about them.

    Modelling conventions.
    - JavaScript numbers that the code only uses as integers (grid
      dimensions, card counts, indices, card identifiers) are [nat] or
      [Z].
    - The coordinates and sizes of the page layout are binary64 values
      with the IEEE 754 operations of the code ([PrimFloat]): the
      layout depends on how sums and differences round.
    - The running product of [getCombinations] and the values returned
      by [Math.random] are exact rationals [Q].  For [getCombinations]
      the predicate [getCombinationsExact] says where the doubles of the
      code take the same values, and the statements that depend on the
      counts are made there.
    - React state is an explicit record that the callbacks transform;
      [console.error] is a log carried in that record.
    - [Math.random] is a stream of draws that is threaded through the
      code together with the position of the next draw. *)

From Stdlib Require Import ZArith QArith Qround Lia Lqa String Floats Uint63.
From stdpp Require Import list strings pretty.

Local Open Scope Z_scope.
#[local] Set Warnings "-register-all".

(** ** Numbers *)

(** [Math.round x]: the integer nearest to [x], halves going up. *)
Definition Math_round (x : Q) : Z := Qfloor (x + (1 # 2)).

(** [Math.floor x]. *)
Definition Math_floor (x : Q) : Z := Qfloor x.

(** [a < b] on rationals, as a boolean. *)
Definition Qltb (a b : Q) : bool := negb (Qle_bool b a).

(** ** Pool sizing *)

Module PoolSizing.

(** The body of the [for] loop of [getCombinations], run [steps] times
    from index [i]: [res = res * (n - i + 1) / i]. *)
Fixpoint combLoop (n : Z) (steps : nat) (i : Z) (res : Q) : Q :=
  match steps with
  | O => res
  | S k => combLoop n k (i + 1) (res * inject_Z (n - i + 1) / inject_Z i)
  end.

(** [getCombinations(n, r)]. *)
Definition getCombinations (n r : Z) : Z :=
  if r >? n then 0
  else if (r =? 0) || (r =? n) then 1
  else
    let r := if Qltb (inject_Z n / 2) (inject_Z r) then n - r else r in
    Math_round (combLoop n (Z.to_nat r) 1 1).

(** [getItemsPerCard()]: all cells of the grid, no free space. *)
Definition getItemsPerCard (gridRows gridCols : nat) : Z :=
  Z.of_nat gridRows * Z.of_nat gridCols.

(** The [while (true)] search of the pool-size effect, started with
    [calculatedMinPool]; [None] when [fuel] iterations do not reach a
    [break]. *)
Fixpoint poolSearch (fuel : nat) (itemsPerCard cardCount calculatedMinPool : Z)
  : option Z :=
  match fuel with
  | O => None
  | S f =>
      let combinations := getCombinations calculatedMinPool itemsPerCard in
      if combinations >=? cardCount then Some calculatedMinPool
      else
        let calculatedMinPool := calculatedMinPool + 1 in
        if calculatedMinPool >? 100 then Some calculatedMinPool
        else poolSearch f itemsPerCard cardCount calculatedMinPool
  end.

(** Iterations after which the search has certainly left its loop: one
    per candidate from [itemsPerCard] to 100, and at least one. *)
Definition searchFuel (itemsPerCard : Z) : nat :=
  S (Z.to_nat (100 - itemsPerCard)).

(** The value the search leaves in [calculatedMinPool]. *)
Definition calculatedMinPool (gridRows gridCols : nat) (cardCount : Z)
  : option Z :=
  let itemsPerCard := getItemsPerCard gridRows gridCols in
  poolSearch (searchFuel itemsPerCard) itemsPerCard cardCount itemsPerCard.

(** The pool-size effect: the value passed to [setMinPoolSize] and
    [setPoolSize], [Math.max(calculatedMinPool, itemsPerCard + 1)]. *)
Definition suggestedMin (gridRows gridCols : nat) (cardCount : Z)
  : option Z :=
  let itemsPerCard := getItemsPerCard gridRows gridCols in
  match calculatedMinPool gridRows gridCols cardCount with
  | Some c => Some (Z.max c (itemsPerCard + 1))
  | None => None
  end.

(** Whether a rational is an integer that a double holds exactly. *)
Definition isSafeInteger (q : Q) : bool :=
  (Z.pos (Qden (Qred q)) =? 1) && (Z.abs (Qnum (Qred q)) <? 2 ^ 53).

(** Whether every product and every quotient of the loop of
    [getCombinations] is such an integer, so that the double arithmetic
    of the code and the exact arithmetic of [combLoop] agree. *)
Fixpoint combExact (n : Z) (steps : nat) (i : Z) (res : Q) : bool :=
  match steps with
  | O => true
  | S k =>
      let product := (res * inject_Z (n - i + 1))%Q in
      let quotient := (product / inject_Z i)%Q in
      isSafeInteger product && isSafeInteger quotient &&
      combExact n k (i + 1) quotient
  end.

Definition getCombinationsExact (n r : Z) : bool :=
  if r >? n then true
  else if (r =? 0) || (r =? n) then true
  else
    let r := if Qltb (inject_Z n / 2) (inject_Z r) then n - r else r in
    combExact n (Z.to_nat r) 1 1.

(** The grid dimensions the interface offers. *)
Definition gridSizes : list nat := [3; 4; 5]%nat.

(** A decision procedure for the sizing guarantee at one input: the
    suggestion exceeds the cell count, the search stopped at or below
    100, and the suggestion offers at least [cardCount] combinations. *)
Definition sizingOk (gridRows gridCols : nat) (cardCount : Z) : bool :=
  let k := getItemsPerCard gridRows gridCols in
  match calculatedMinPool gridRows gridCols cardCount,
        suggestedMin gridRows gridCols cardCount with
  | Some c, Some s =>
      (k + 1 <=? s) && (c <=? 100) && (cardCount <=? getCombinations s k)
  | _, _ => false
  end.

End PoolSizing.

(** ** Card assembly *)

Module Cards.

(** [BingoItem] of [types.ts]. *)
Record BingoItem := {
  item_id : string;
  problem : string;
  answer : string
}.

(** A JavaScript array whose slots may hold [undefined] ([None]): what
    an array of [T] can become once it is written outside its bounds. *)
Abbreviation JsArray T := (list (option T)).

(** [arr[j]] read: [undefined] outside the array. *)
Definition jsGet {T} (arr : JsArray T) (j : Z) : option T :=
  if j <? 0 then None
  else match arr !! Z.to_nat j with
       | Some slot => slot
       | None => None
       end.

(** [arr[j] = v]: inside the array the slot is replaced; past its end
    the array grows, the new slots in between being [undefined]; a
    negative [j] names an ordinary property and leaves the elements as
    they are. *)
Definition jsSet {T} (arr : JsArray T) (j : Z) (v : option T) : JsArray T :=
  if j <? 0 then arr
  else
    let k := Z.to_nat j in
    if (k <? length arr)%nat then <[k:=v]> arr
    else arr ++ replicate (k - length arr)%nat None ++ [v].

(** [BingoCardData] of [types.ts]; [generateCards] never stores the
    ['GRATIS'] marker, so a cell is an item (or [undefined]). *)
Record BingoCardData := {
  card_id : Z;
  cells : JsArray BingoItem
}.

(** The random source: the stream of values [Math.random] returns and
    the position of the next one. *)
Record Rng := {
  draws : nat -> Q;
  next : nat
}.

(** [Math.random()]. *)
Definition Math_random (g : Rng) : Q * Rng :=
  (draws g (next g), {| draws := draws g; next := S (next g) |}).

(** Every value of the source lies in the interval [0, 1), as
    [Math.random] guarantees. *)
Definition unit_interval (g : Rng) : Prop :=
  forall k, (0 <= draws g k)%Q /\ (draws g k < 1)%Q.

(** The loop of [shuffleArray], from index [i] down to 1:
    [j = Math.floor(Math.random() * (i + 1))] and the exchange
    [[arr[i], arr[j]] = [arr[j], arr[i]]], whose right-hand side is read
    before either slot is written. *)
Fixpoint shuffleLoop {T} (i : nat) (arr : JsArray T) (g : Rng)
  : JsArray T * Rng :=
  match i with
  | O => (arr, g)
  | S i' =>
      let (u, g') := Math_random g in
      let j := Math_floor (u * inject_Z (Z.of_nat i + 1)) in
      let aj := jsGet arr j in
      let ai := jsGet arr (Z.of_nat i) in
      let arr := jsSet (jsSet arr (Z.of_nat i) aj) j ai in
      shuffleLoop i' arr g'
  end.

(** [shuffleArray(array)]: Fisher-Yates on a copy. *)
Definition shuffleArray {T} (array : list T) (g : Rng) : JsArray T * Rng :=
  let arr := Some <$> array in
  shuffleLoop (length arr - 1) arr g.

(** The part of the component state [generateCards] touches, and the
    error log of the console. *)
Record AppState := {
  cards : list BingoCardData;
  console : list string
}.

(** The [for] loop of [generateCards] with [steps] iterations left and
    loop variable [i]: [None] is the early [return] after the console
    error, [Some newCards] the list handed to [setCards]. *)
Fixpoint cardsLoop (steps : nat) (i : Z) (itemsNeededPerCard : nat)
  (pool : list BingoItem) (newCards : list BingoCardData) (g : Rng)
  : option (list BingoCardData) * Rng :=
  match steps with
  | O => (Some newCards, g)
  | S k =>
      let (shuffled, g') := shuffleArray pool g in
      if (length shuffled <? itemsNeededPerCard)%nat then (None, g')
      else
        let selectedItems := take itemsNeededPerCard shuffled in
        cardsLoop k (i + 1) itemsNeededPerCard pool
          (newCards ++ [{| card_id := i; cells := selectedItems |}]) g'
  end.

(** [generateCards(pool, count)] for the grid [gridRows] x [gridCols]. *)
Definition generateCards (gridRows gridCols : nat) (pool : list BingoItem)
  (count : Z) (st : AppState) (g : Rng) : AppState * Rng :=
  let itemsNeededPerCard := (gridRows * gridCols)%nat in
  match cardsLoop (Z.to_nat count) 1 itemsNeededPerCard pool [] g with
  | (None, g') =>
      ({| cards := cards st;
          console := console st ++ ["Not enough items to fill a card!"%string] |},
       g')
  | (Some newCards, g') =>
      ({| cards := newCards; console := console st |}, g')
  end.

(** What a finished card must be: [n] cells, each an item of the pool,
    and no item twice when the pool has none twice. *)
Definition fullCard (pool : list BingoItem) (n : nat) (c : BingoCardData) : Prop :=
  length (cells c) = n /\
  (forall e, e ∈ cells c -> exists x, e = Some x /\ x ∈ pool) /\
  (NoDup pool -> NoDup (cells c)).

(** A pool of [n] items with distinct identifiers, and a source that
    always returns one half, for running the code on an example. *)
Definition numberedItem (k : nat) : BingoItem :=
  {| item_id := String (Ascii.ascii_of_nat (65 + k)) EmptyString;
     problem := "problem"; answer := "answer" |}.
Definition numberedPool (n : nat) : list BingoItem := numberedItem <$> seq 0 n.
Definition halves : Rng := {| draws := fun _ => 1 # 2; next := 0 |}.
Definition emptyState : AppState := {| cards := []; console := [] |}.

End Cards.

(** ** Page layout *)

Module Layout.

Local Open Scope float_scope.

(** Coordinates and sizes are JavaScript numbers: binary64 values with
    the operations of IEEE 754, as [PrimFloat] has them. *)

Definition pageWidth : float := 210.
Definition pageHeight : float := 297.
Definition margin : float := 10.
Definition contentWidth : float := pageWidth - margin * 2.
Definition cardWidth : float := 90.
Definition cardGap : float := 10.

(** A small index as a number. *)
Definition numberOf (n : nat) : float := of_uint63 (Uint63.of_Z (Z.of_nat n)).

(** An image put on a page by [pdf.addImage]. *)
Record Image := {
  imgPage : nat;
  imgX : float;
  imgY : float;
  imgW : float;
  imgH : float
}.

(** The document: its number of pages (images go to the last one) and
    the images placed so far. *)
Record Pdf := {
  pageCount : nat;
  images : list Image
}.

Definition newPdf : Pdf := {| pageCount := 1; images := [] |}.

Definition addPage (pdf : Pdf) : Pdf :=
  {| pageCount := S (pageCount pdf); images := images pdf |}.

Definition addImage (pdf : Pdf) (x y w h : float) : Pdf :=
  {| pageCount := pageCount pdf;
     images := images pdf ++
       [{| imgPage := pageCount pdf; imgX := x; imgY := y; imgW := w; imgH := h |}] |}.

(** *** Card placement *)

Record CardCursor := {
  cursorX : float;
  cursorY : float;
  cardPdf : Pdf
}.

(** The cursor below the title of the first page. *)
Definition cardStart : CardCursor :=
  {| cursorX := margin; cursorY := 30; cardPdf := newPdf |}.

(** One iteration of the card loop: card [i] of [n], whose scaled
    snapshot is [imgHeight] high. *)
Definition placeCard (n i : nat) (imgHeight : float) (st : CardCursor) : CardCursor :=
  let imgWidth := cardWidth in
  let colIndex := (i mod 2)%nat in
  let st :=
    if (colIndex =? 0)%nat then
      if pageHeight - margin <? cursorY st + imgHeight then
        {| cursorX := cursorX st; cursorY := margin + 10;
           cardPdf := addPage (cardPdf st) |}
      else st
    else st in
  let cursorX := margin + numberOf colIndex * (cardWidth + cardGap) in
  let pdf := addImage (cardPdf st) cursorX (cursorY st) imgWidth imgHeight in
  let cursorY :=
    if (colIndex =? 1)%nat || (Z.of_nat i =? Z.of_nat n - 1)%Z
    then cursorY st + (imgHeight + 10)
    else cursorY st in
  {| cursorX := cursorX; cursorY := cursorY; cardPdf := pdf |}.

(** The card loop from index [i] over the heights still to place. *)
Fixpoint placeCards (n i : nat) (heights : list float) (st : CardCursor) : CardCursor :=
  match heights with
  | [] => st
  | h :: rest => placeCards n (S i) rest (placeCard n i h st)
  end.

(** The state of the loop over [heights] after its first [k]
    iterations. *)
Definition cursorAfter (heights : list float) (k : nat) : CardCursor :=
  placeCards (length heights) 0 (take k heights) cardStart.

(** *** Calling-list pagination *)

(** A strip cut from the list canvas by [drawImage]. *)
Record Slice := {
  srcY : float;
  sliceHeight : float
}.

Record ListState := {
  rowBreakpoints : list float;
  currentSrcY : float;
  remainingSrcHeight : float;
  slices : list Slice;
  listPdf : Pdf
}.

(** A table row as the DOM reports it. *)
Record Row := {
  offsetTop : float;
  offsetHeight : float
}.

(** The row bottoms mapped to canvas coordinates: for each row,
    [(offsetTop + offsetHeight) * scaleFactor] with
    [scaleFactor = listCanvas.height / listElement.offsetHeight]. *)
Definition recordBreakpoints (canvasHeight listOffsetHeight : float)
  (rows : list Row) : list float :=
  let scaleFactor := canvasHeight / listOffsetHeight in
  (fun row => (offsetTop row + offsetHeight row) * scaleFactor) <$> rows.

(** [maxSrcHeightPerPage] for a list canvas [canvasWidth] wide. *)
Definition canvasToPdfRatio (canvasWidth : float) : float := contentWidth / canvasWidth.
Definition maxPageContentHeightMM : float := pageHeight - margin * 2.
Definition maxSrcHeightOf (canvasWidth : float) : float :=
  maxPageContentHeightMM / canvasToPdfRatio canvasWidth.

(** [Math.min(a, b)]: [NaN] when either is, and the negative zero of
    two zeros. *)
Definition Math_min (a b : float) : float :=
  if is_nan a || is_nan b then nan
  else if a <? b then a
  else if b <? a then b
  else match classify a with NZero => a | _ => b end.

(** [if (safeBreak)]: a number found counts unless it is zero or
    [NaN]; [undefined] does not. *)
Definition truthyBreak (safeBreak : option float) : bool :=
  match safeBreak with
  | Some b => negb (b =? 0) && negb (is_nan b)
  | None => false
  end.

(** The strip height chosen in one iteration, and the breakpoint array
    after its two in-place reversals. *)
Definition chooseSlice (maxSrcHeightPerPage : float) (st : ListState)
  : list float * float :=
  let sliceHeight := Math_min (remainingSrcHeight st) maxSrcHeightPerPage in
  if maxSrcHeightPerPage <? remainingSrcHeight st then
    let cutPoint := currentSrcY st + sliceHeight in
    let reversed := rev (rowBreakpoints st) in
    let safeBreak :=
      List.find (fun bp => (bp <? cutPoint) && (currentSrcY st <? bp)) reversed in
    let restored := rev reversed in
    match safeBreak with
    | Some b => if truthyBreak safeBreak then (restored, b - currentSrcY st)
                else (restored, sliceHeight)
    | None => (restored, sliceHeight)
    end
  else (rowBreakpoints st, sliceHeight).

(** One iteration of the [while (remainingSrcHeight > 0)] loop, the 2d
    context of the temporary canvas being available: a page is added,
    the strip is cut at the cursor and drawn, the cursor moves on. *)
Definition sliceStep (maxSrcHeightPerPage ratio : float) (st : ListState) : ListState :=
  let pdf := addPage (listPdf st) in
  let '(bps, sliceHeight) := chooseSlice maxSrcHeightPerPage st in
  let pdfHeight := sliceHeight * ratio in
  let pdf := addImage pdf margin margin contentWidth pdfHeight in
  {| rowBreakpoints := bps;
     currentSrcY := currentSrcY st + sliceHeight;
     remainingSrcHeight := remainingSrcHeight st - sliceHeight;
     slices := slices st ++ [{| srcY := currentSrcY st; sliceHeight := sliceHeight |}];
     listPdf := pdf |}.

(** The loop itself; [None] when it is still running after [fuel]
    iterations. *)
Fixpoint paginate (fuel : nat) (maxSrcHeightPerPage ratio : float) (st : ListState)
  : option ListState :=
  match fuel with
  | O => None
  | S f =>
      if 0 <? remainingSrcHeight st
      then paginate f maxSrcHeightPerPage ratio (sliceStep maxSrcHeightPerPage ratio st)
      else Some st
  end.

(** The state in front of the loop for a canvas [canvasHeight] high. *)
Definition listStart (bps : list float) (canvasHeight : float) (pdf : Pdf) : ListState :=
  {| rowBreakpoints := bps; currentSrcY := 0;
     remainingSrcHeight := canvasHeight; slices := []; listPdf := pdf |}.




(** A table of three rows, 1940 high, captured on a 1200 x 3879
    canvas; and a single row of 1939 on a 532 x 3878 canvas. *)
Definition threeRows : list Row :=
  [{| offsetTop := 0; offsetHeight := 47 |};
   {| offsetTop := 47; offsetHeight := 853 |};
   {| offsetTop := 900; offsetHeight := 1040 |}].
Definition oneRow : list Row := [{| offsetTop := 0; offsetHeight := 1939 |}].

End Layout.

(** ** Subject detection *)

Module Subject.

(** The JSON values the content provider can answer with. *)
Inductive JsValue :=
| JUndefined
| JNull
| JBool (b : bool)
| JNumber (q : Q)
| JString (s : string)
| JObject (fields : list (string * JsValue)).

(** How a call ends: with a value, or with an exception. *)
Inductive Completion (A : Type) :=
| Returned (a : A)
| Thrown (error : string).
Arguments Returned {A} a.
Arguments Thrown {A} error.

(** JavaScript truthiness. *)
Definition truthy (v : JsValue) : bool :=
  match v with
  | JUndefined | JNull => false
  | JBool b => b
  | JNumber q => negb (Qeq_bool q 0)
  | JString s => negb (String.eqb s "")
  | JObject _ => true
  end.

Fixpoint lookupField (name : string) (fields : list (string * JsValue)) : JsValue :=
  match fields with
  | [] => JUndefined
  | (k, v) :: rest => if String.eqb k name then v else lookupField name rest
  end.

(** [v.name]: a [TypeError] on [undefined] and [null]. *)
Definition getProp (v : JsValue) (name : string) : Completion JsValue :=
  match v with
  | JUndefined | JNull => Thrown "TypeError"
  | JObject fields => Returned (lookupField name fields)
  | _ => Returned JUndefined
  end.

Record SubjectContext := {
  subject : JsValue;
  isMath : bool
}.

Definition defaultContext : SubjectContext :=
  {| subject := JString "Algemeen"; isMath := false |}.

(** The [try] block of [detectSubject]: the provider call (the request
    and the parse of its answer) and the construction of the result. *)
Definition detectBody (call : Completion JsValue) : Completion SubjectContext :=
  match call with
  | Thrown e => Thrown e
  | Returned result =>
      match getProp result "subject" with
      | Thrown e => Thrown e
      | Returned s =>
          match getProp result "isMath" with
          | Thrown e => Thrown e
          | Returned m =>
              Returned {| subject := if truthy s then s else JString "Algemeen";
                          isMath := truthy m |}
          end
      end
  end.

(** [detectSubject]: [call] is how the provider call ends, [log] the
    console; the [catch] clause logs and returns the default. *)
Definition detectSubject (call : Completion JsValue) (log : list string)
  : Completion SubjectContext * list string :=
  match detectBody call with
  | Returned ctx => (Returned ctx, log)
  | Thrown e =>
      (Returned defaultContext, log ++ [("Error detecting subject: " ++ e)%string])
  end.

(** [GeneratorStatus] of [types.ts]. *)
Inductive GeneratorStatus :=
| IDLE | DETECTING | CONFIRMING | GENERATING | SUCCESS | ERROR.

(** [handleStartGeneration] once a topic or image is present: the
    status the component ends in. *)
Definition handleStartGeneration (call : Completion JsValue) (log : list string)
  : GeneratorStatus * list string :=
  match detectSubject call log with
  | (Returned _, log') => (CONFIRMING, log')
  | (Thrown e, log') => (ERROR, log' ++ [e])
  end.

End Subject.

(** ** Binomial coefficients *)

Module Combinatorics.

(** The number of [k]-element subsets of an [n]-element set, by
    Pascal's rule: what [getCombinations] is meant to compute. *)
Fixpoint choose (n k : nat) {struct n} : nat :=
  match k with
  | O => 1
  | S k' =>
      match n with
      | O => 0
      | S n' => choose n' k' + choose n' (S k')
      end
  end.

End Combinatorics.

(** ** Card rendering *)

Module Rendering.

(** [arr.slice(start, end)] for indices that are not negative. *)
Definition jsSlice {T} (arr : list T) (start stop : nat) : list T :=
  take (stop - start) (drop start arr).

(** The rows [BingoCard] cuts the flat cell array into: for each [i]
    below [rows], [cells.slice(i * cols, (i + 1) * cols)]. *)
Definition gridRowsOf {T} (cells : list T) (rows cols : nat) : list (list T) :=
  (fun i => jsSlice cells (i * cols) ((i + 1) * cols)) <$> seq 0 rows.

End Rendering.

(** ** The generation workflow *)

Module Workflow.
Import Cards Subject.

(** The component state the generation handlers touch. *)
Record Component := {
  status : GeneratorStatus;
  subjectContext : SubjectContext;
  tempSubjectName : string;
  items : list BingoItem;
  view : AppState
}.

(** [handleConfirmAndGenerate]: the subject name the user confirmed
    goes into the context, then [provider] is how the call of
    [generateBingoItems] ends. *)
Definition handleConfirmAndGenerate (gridRows gridCols : nat) (cardCount : Z)
  (provider : Completion (list BingoItem)) (c : Component) (g : Rng)
  : Component * Rng :=
  let finalContext :=
    {| subject := JString (tempSubjectName c);
       isMath := isMath (subjectContext c) |} in
  let c := {| status := GENERATING; subjectContext := finalContext;
              tempSubjectName := tempSubjectName c;
              items := items c; view := view c |} in
  match provider with
  | Returned pool =>
      let (v, g') := generateCards gridRows gridCols pool cardCount (view c) g in
      ({| status := SUCCESS; subjectContext := subjectContext c;
          tempSubjectName := tempSubjectName c; items := pool; view := v |}, g')
  | Thrown e =>
      ({| status := ERROR; subjectContext := subjectContext c;
          tempSubjectName := tempSubjectName c; items := items c;
          view := {| cards := cards (view c);
                     console := console (view c) ++ [e] |} |}, g)
  end.

(** A component waiting for confirmation, for running the handler on
    an example. *)
Definition confirming : Component :=
  {| status := CONFIRMING; subjectContext := defaultContext;
     tempSubjectName := "Rekenen"; items := []; view := emptyState |}.

End Workflow.

(** ** Calling-list pagination: the shape of its result *)

Module Strips.
Import Layout.
Local Open Scope float_scope.

(** Strips that follow one another from position [from] to position
    [to] in the arithmetic of the code: each starts where the sum of
    the start and the height of the one before it lies. *)
Fixpoint chained (from : float) (l : list Slice) (to : float) : Prop :=
  match l with
  | [] => to = from
  | s :: rest => srcY s = from /\ chained (from + sliceHeight s) rest to
  end.

(** The images the loop adds for the strips [l] to a document that had
    [pdf0]'s pages: strip [j] alone on page [j + 1] after them, at the
    top left of the printable area and as wide as it. *)
Definition stripImages (pdf0 : Pdf) (ratio : float) (l : list Slice) : list Image :=
  imap (fun j s =>
          {| imgPage := pageCount pdf0 + S j;
             imgX := margin; imgY := margin; imgW := contentWidth;
             imgH := sliceHeight s * ratio |}) l.

(** What is left of a canvas [H] high after the strips [l], as the code
    subtracts them. *)
Definition remainingAfter (H : float) (l : list Slice) : float :=
  fold_left (fun r s => r - sliceHeight s) l H.

End Strips.

(** ** The item pool of the provider *)

Module Items.
Import Subject.

(** A parsed JSON answer. *)
Inductive Json :=
| JsUndefined
| JsNull
| JsBool (b : bool)
| JsNum (q : Q)
| JsStr (s : string)
| JsArr (elems : list Json)
| JsObj (fields : list (string * Json)).

(** JavaScript truthiness. *)
Definition truthyJson (v : Json) : bool :=
  match v with
  | JsUndefined | JsNull => false
  | JsBool b => b
  | JsNum q => negb (Qeq_bool q 0)
  | JsStr s => negb (String.eqb s "")
  | JsArr _ | JsObj _ => true
  end.

Fixpoint fieldOf (name : string) (fields : list (string * Json)) : Json :=
  match fields with
  | [] => JsUndefined
  | (k, v) :: rest => if String.eqb k name then v else fieldOf name rest
  end.

(** [v.name] for the names the service reads ([items], [problem],
    [answer]), none of which a string, number, boolean or array has of
    its own: a [TypeError] on [undefined] and [null]. *)
Definition getField (v : Json) (name : string) : Completion Json :=
  match v with
  | JsUndefined | JsNull => Thrown "TypeError"
  | JsObj fields => Returned (fieldOf name fields)
  | _ => Returned JsUndefined
  end.

(** A pool item as the service builds it; nothing checks that the
    provider's [problem] and [answer] are strings. *)
Record RawItem := {
  id : string;
  problem : Json;
  answer : Json
}.

(** [a || "Fout"]. *)
Definition orFout (a : Json) : Json := if truthyJson a then a else JsStr "Fout".

(** The callback of [itemsArray.map] of the OpenRouter service, applied
    from [index] on. *)
Fixpoint mapItems (index : nat) (l : list Json) : Completion (list RawItem) :=
  match l with
  | [] => Returned []
  | item :: rest =>
      match getField item "problem" with
      | Thrown e => Thrown e
      | Returned p =>
          match getField item "answer" with
          | Thrown e => Thrown e
          | Returned a =>
              match mapItems (S index) rest with
              | Thrown e => Thrown e
              | Returned r =>
                  Returned ({| id := "item-" +:+ pretty index;
                               problem := orFout p; answer := orFout a |} :: r)
              end
          end
      end
  end.

(** The [try] block of [generateBingoItems] of the OpenRouter service:
    [call] is how [callOpenRouter] ends. *)
Definition itemsBody (call : Completion Json) : Completion (list RawItem) :=
  match call with
  | Thrown e => Thrown e
  | Returned rawData =>
      let itemsArray :=
        match rawData with
        | JsArr _ => Returned rawData
        | _ =>
            match getField rawData "items" with
            | Thrown e => Thrown e
            | Returned v => Returned (if truthyJson v then v else JsArr [])
            end
        end in
      match itemsArray with
      | Thrown e => Thrown e
      | Returned (JsArr l) => mapItems 0 l
      | Returned _ => Thrown "TypeError: itemsArray.map is not a function"
      end
  end.

Definition itemsError : string := "Kon geen items genereren. Probeer het opnieuw.".

(** [generateBingoItems] of the OpenRouter service. *)
Definition generateBingoItems (call : Completion Json) (log : list string)
  : Completion (list RawItem) * list string :=
  match itemsBody call with
  | Returned pool => (Returned pool, log)
  | Thrown e =>
      (Thrown itemsError, log ++ [("Error generating bingo items: " +:+ e)%string])
  end.

(** The callback of [rawData.map] of the Gemini service: the fields are
    taken as they are. *)
Fixpoint mapItemsGemini (index : nat) (l : list Json) : Completion (list RawItem) :=
  match l with
  | [] => Returned []
  | item :: rest =>
      match getField item "problem" with
      | Thrown e => Thrown e
      | Returned p =>
          match getField item "answer" with
          | Thrown e => Thrown e
          | Returned a =>
              match mapItemsGemini (S index) rest with
              | Thrown e => Thrown e
              | Returned r =>
                  Returned ({| id := "item-" +:+ pretty index;
                               problem := p; answer := a |} :: r)
              end
          end
      end
  end.

(** [generateBingoItems] of the Gemini service: [call] is how the
    request and the parse of its answer end. *)
Definition generateBingoItemsGemini (call : Completion Json) (log : list string)
  : Completion (list RawItem) * list string :=
  let body :=
    match call with
    | Thrown e => Thrown e
    | Returned (JsArr l) => mapItemsGemini 0 l
    | Returned _ => Thrown "TypeError: rawData.map is not a function"
    end in
  match body with
  | Returned pool => (Returned pool, log)
  | Thrown e =>
      (Thrown itemsError, log ++ [("Error generating bingo items: " +:+ e)%string])
  end.

End Items.

(** ** The name of the exported file *)

Module FileName.

(** Whether a UTF-16 code unit is one of [a-z], [A-Z], [0-9]: what the
    class [[^a-z0-9]] with the flag [i] does not match. *)
Definition isAlnum (c : N) : bool :=
  ((48 <=? c) && (c <=? 57) || (65 <=? c) && (c <=? 90) ||
   (97 <=? c) && (c <=? 122))%N.

Definition underscore : N := 95%N.

(** [subject.replace(/[^a-z0-9]/gi, '_')] on the code units of the
    subject. *)
Definition sanitize (subject : list N) : list N :=
  (fun c => if isAlnum c then c else underscore) <$> subject.

End FileName.

(** * Properties *)

(** ** Numbers *)

Lemma Qltb_lt (a b : Q) : Qltb a b = true <-> (a < b)%Q.
Proof.
  unfold Qltb. rewrite negb_true_iff. split.
  - intros H. apply Qnot_le_lt. intros Hle.
    apply Qle_bool_iff in Hle. congruence.
  - intros H. destruct (Qle_bool b a) eqn:E; [|reflexivity].
    apply Qle_bool_iff in E. exfalso. apply (Qlt_not_le _ _ H E).
Qed.

Lemma Qltb_ge (a b : Q) : Qltb a b = false <-> (b <= a)%Q.
Proof.
  unfold Qltb. rewrite negb_false_iff. apply Qle_bool_iff.
Qed.

(** ** Pool sizing *)

Module PoolSizingFacts.
Import PoolSizing.

(** The search leaves its loop within [searchFuel] iterations, at a
    candidate between its start and one past the ceiling. *)
Lemma poolSearch_total (k cc : Z) (fuel : nat) (n : Z) :
  (Z.to_nat (100 - n) < fuel)%nat ->
  exists c, poolSearch fuel k cc n = Some c /\ n <= c /\ c <= Z.max 101 (n + 1).
Proof.
  revert n. induction fuel as [|f IH]; intros n Hf; [lia|].
  simpl. destruct (getCombinations n k >=? cc) eqn:Hc.
  - exists n. split; [reflexivity|lia].
  - destruct (Z.gtb_spec (n + 1) 100) as [Hn|Hn].
    + exists (n + 1). split; [reflexivity|lia].
    + destruct (IH (n + 1)) as (c & Hs & Hlo & Hhi); [lia|].
      exists c. split; [exact Hs|lia].
Qed.

(** When no candidate up to 100 offers enough combinations the search
    stops at 101. *)
Lemma poolSearch_ceiling (k cc : Z) (fuel : nat) (n c : Z) :
  n <= 100 ->
  (forall m, n <= m <= 100 -> getCombinations m k < cc) ->
  poolSearch fuel k cc n = Some c -> c = 101.
Proof.
  revert n. induction fuel as [|f IH]; intros n Hn Hlow; [discriminate|].
  simpl. destruct (getCombinations n k >=? cc) eqn:Hc.
  - specialize (Hlow n ltac:(lia)). apply Z.geb_le in Hc. lia.
  - destruct (Z.gtb_spec (n + 1) 100) as [Hgt|Hgt].
    + intros [= <-]. lia.
    + apply IH; [lia|]. intros m Hm. apply Hlow. lia.
Qed.

Lemma ceiling_example m : 9 <= m <= 100 -> getCombinations m 9 < 10 ^ 13.
Proof.
  intros Hm.
  assert (H : forallb (fun d => getCombinations (9 + Z.of_nat d) 9 <? 10 ^ 13)
                (seq 0 92) = true) by (vm_compute; reflexivity).
  rewrite forallb_forall in H.
  specialize (H (Z.to_nat (m - 9))).
  replace (9 + Z.of_nat (Z.to_nat (m - 9))) with m in H by lia.
  apply Z.ltb_lt, H, in_seq. lia.
Qed.

Lemma ceiling_example_exact m : 9 <= m <= 100 -> getCombinationsExact m 9 = true.
Proof.
  intros Hm.
  assert (H : forallb (fun d => getCombinationsExact (9 + Z.of_nat d) 9)
                (seq 0 92) = true) by (vm_compute; reflexivity).
  rewrite forallb_forall in H.
  specialize (H (Z.to_nat (m - 9))).
  replace (9 + Z.of_nat (Z.to_nat (m - 9))) with m in H by lia.
  apply H, in_seq. lia.
Qed.

(** C6 (amended): the pool-sizing computation always returns; its result
    never exceeds the larger of 101 and rows*cols + 1; and for a grid of
    at most 100 cells, when for every candidate size up to 100 the
    combination count is computed without rounding and is below
    [cardCount], the result is 101, one past the ceiling. *)
Theorem suggestedMin_ceiling (gridRows gridCols : nat) (cardCount : Z) :
  let k := getItemsPerCard gridRows gridCols in
  exists s, suggestedMin gridRows gridCols cardCount = Some s /\
    s <= Z.max 101 (k + 1) /\
    (k <= 100 ->
     (forall m, k <= m <= 100 ->
        getCombinationsExact m k = true /\ getCombinations m k < cardCount) ->
     s = 101).
Proof.
  intros k. unfold suggestedMin, calculatedMinPool. fold k.
  destruct (poolSearch_total k cardCount (searchFuel k) k) as (c & Hs & Hlo & Hhi).
  { unfold searchFuel. lia. }
  rewrite Hs. eexists; split; [reflexivity|]. split; [lia|].
  intros Hk Hlow.
  rewrite (poolSearch_ceiling _ _ _ _ _ Hk (fun m Hm => proj2 (Hlow m Hm)) Hs). lia.
Qed.

Lemma suggestedMin_ceiling_witness : suggestedMin 3 3 (10 ^ 13) = Some 101.
Proof.
  destruct (suggestedMin_ceiling 3 3 (10 ^ 13)) as (s & Hs & _ & Hhit).
  rewrite Hs. f_equal. apply Hhit.
  - unfold getItemsPerCard. lia.
  - intros m Hm. split; [exact (ceiling_example_exact m Hm) | exact (ceiling_example m Hm)].
Defined.

(** C6 as stated fails: for a 3x3 grid and 10^13 cards the result is
    101, above 100. *)
Lemma suggestedMin_exceeds_100 :
  ~ (forall gridRows gridCols cardCount s,
       suggestedMin gridRows gridCols cardCount = Some s -> s <= 100).
Proof.
  intros H.
  specialize (H 3%nat 3%nat (10 ^ 13) 101 ltac:(vm_compute; reflexivity)). lia.
Qed.

(** C5 as stated fails: the computation for a 3x3 grid and 30 cards does
    not return 13. *)
Lemma suggestedMin_3_3_30_not_13 : suggestedMin 3 3 30 <> Some 13.
Proof. vm_compute. discriminate. Qed.

(** C5 (amended): the pool-sizing computation for a 3x3 grid and 30
    cards returns 11. *)
Theorem suggestedMin_3_3_30 : suggestedMin 3 3 30 = Some 11.
Proof. vm_compute. reflexivity. Qed.

(** The calls of [getCombinations] behind the results below stay within
    exact double arithmetic: those of the search for the offered grids
    and up to 100 cards, which ends within three candidates, and those
    of a 3x3 grid for every candidate up to 100. *)
Remark getCombinations_exact_offered :
  forallb (fun r => forallb (fun c => forallb (fun d =>
      getCombinationsExact (getItemsPerCard r c + Z.of_nat d) (getItemsPerCard r c))
    (seq 0 4)) gridSizes) gridSizes = true.
Proof. vm_compute. reflexivity. Qed.

Remark getCombinations_exact_3x3 :
  forallb (fun d => getCombinationsExact (9 + Z.of_nat d) 9) (seq 0 92) = true.
Proof. vm_compute. reflexivity. Qed.

Lemma sizingOk_all :
  forallb (fun r => forallb (fun c => forallb (fun n => sizingOk r c (Z.of_nat n))
     (seq 1 100)) gridSizes) gridSizes = true.
Proof. vm_compute. reflexivity. Qed.

(** C2: for rows and cols in {3,4,5} and 1 <= cardCount <= 100 the
    pool-sizing computation returns a value of at least rows*cols + 1
    and, unless the search ran past 100, [getCombinations] of that value
    and rows*cols is at least [cardCount]. *)
Theorem suggestedMin_sufficient (gridRows gridCols : nat) (cardCount : Z) :
  In gridRows gridSizes -> In gridCols gridSizes -> 1 <= cardCount <= 100 ->
  let k := getItemsPerCard gridRows gridCols in
  exists c s,
    calculatedMinPool gridRows gridCols cardCount = Some c /\
    suggestedMin gridRows gridCols cardCount = Some s /\
    k + 1 <= s /\
    (c <= 100 -> cardCount <= getCombinations s k).
Proof.
  intros Hr Hc Hn k.
  pose proof sizingOk_all as H.
  rewrite forallb_forall in H. specialize (H _ Hr).
  rewrite forallb_forall in H. specialize (H _ Hc).
  rewrite forallb_forall in H. specialize (H (Z.to_nat cardCount)).
  rewrite Z2Nat.id in H by lia.
  specialize (H ltac:(apply in_seq; lia)).
  unfold sizingOk in H. fold k in H.
  destruct (calculatedMinPool gridRows gridCols cardCount) as [c|]; [|discriminate].
  destruct (suggestedMin gridRows gridCols cardCount) as [s|]; [|discriminate].
  apply andb_prop in H as [H H3]. apply andb_prop in H as [H1 H2].
  exists c, s. repeat split; try reflexivity; lia.
Qed.

Lemma suggestedMin_sufficient_witness :
  exists c s,
    calculatedMinPool 3 3 30 = Some c /\
    suggestedMin 3 3 30 = Some s /\
    getItemsPerCard 3 3 + 1 <= s /\
    (c <= 100 -> 30 <= getCombinations s (getItemsPerCard 3 3)).
Proof.
  apply (suggestedMin_sufficient 3 3 30); [simpl; tauto | simpl; tauto | lia].
Defined.

End PoolSizingFacts.

(** ** Card assembly *)

Module CardsFacts.
Import Cards.

Lemma draw_index (u : Q) (i : nat) :
  (0 <= u)%Q -> (u < 1)%Q ->
  0 <= Math_floor (u * inject_Z (Z.of_nat i + 1)) <= Z.of_nat i.
Proof.
  intros H0 H1. unfold Math_floor.
  set (n := Z.of_nat i + 1).
  assert (Hn : (0 < inject_Z n)%Q).
  { change 0%Q with (inject_Z 0). rewrite <- Zlt_Qlt. lia. }
  split.
  - change 0 with (Qfloor 0). apply Qfloor_resp_le.
    apply Qmult_le_0_compat; [exact H0 | apply Qlt_le_weak, Hn].
  - assert (Hlt : (u * inject_Z n < inject_Z n)%Q).
    { assert (H : (u * inject_Z n < 1 * inject_Z n)%Q)
        by (apply Qmult_lt_compat_r; assumption).
      rewrite Qmult_1_l in H. exact H. }
    pose proof (Qfloor_le (u * inject_Z n)) as Hfl.
    assert (Hz : (inject_Z (Qfloor (u * inject_Z n)) < inject_Z n)%Q).
    { eapply Qle_lt_trans; eassumption. }
    rewrite <- Zlt_Qlt in Hz. lia.
Qed.

Lemma jsGet_some {T} (l : list T) (j : nat) :
  jsGet (Some <$> l) (Z.of_nat j) = l !! j.
Proof.
  unfold jsGet. destruct (Z.ltb_spec (Z.of_nat j) 0) as [H|_]; [lia|].
  rewrite Nat2Z.id, list_lookup_fmap. destruct (l !! j); reflexivity.
Qed.

Lemma jsSet_some {T} (l : list T) (j : nat) (x : T) :
  (j < length l)%nat ->
  jsSet (Some <$> l) (Z.of_nat j) (Some x) = Some <$> <[j:=x]> l.
Proof.
  intros Hj. unfold jsSet.
  destruct (Z.ltb_spec (Z.of_nat j) 0) as [H|_]; [lia|].
  rewrite Nat2Z.id, length_fmap.
  destruct (Nat.ltb_spec j (length l)) as [_|H]; [|lia].
  symmetry. apply list_fmap_insert.
Qed.

Lemma exchange_head {T} (l : list T) (i : nat) (a y : T) :
  l !! i = Some y -> y :: <[i:=a]> l ≡ₚ a :: l.
Proof.
  revert i. induction l as [|b l IH]; intros [|i] H; simplify_eq/=.
  - apply perm_swap.
  - rewrite (perm_swap b y). rewrite (IH _ H). apply perm_swap.
Qed.

(** Exchanging two slots of a list permutes it. *)
Lemma exchange_perm {T} (l : list T) (i j : nat) (x y : T) :
  l !! j = Some x -> l !! i = Some y -> <[j:=y]> (<[i:=x]> l) ≡ₚ l.
Proof.
  revert i j. induction l as [|a l IH]; intros [|i] [|j] Hj Hi; simplify_eq/=.
  - reflexivity.
  - apply exchange_head. exact Hj.
  - apply exchange_head. exact Hi.
  - f_equiv. apply IH; assumption.
Qed.

Lemma Math_random_unit (g : Rng) :
  unit_interval g -> unit_interval (Math_random g).2.
Proof. intros H k. apply (H k). Qed.

(** Under a source with values in [0, 1) the loop of [shuffleArray]
    stays inside the array and permutes it. *)
Lemma shuffleLoop_perm {T} (i : nat) (l : list T) (g : Rng) :
  unit_interval g -> (i < length l)%nat ->
  exists l', (shuffleLoop i (Some <$> l) g).1 = Some <$> l' /\ l' ≡ₚ l /\
             unit_interval (shuffleLoop i (Some <$> l) g).2.
Proof.
  revert l g. induction i as [|i IH]; intros l g Hg Hi.
  - exists l. simpl. auto.
  - cbn [shuffleLoop Math_random].
    destruct (Hg (next g)) as [H0 H1].
    pose proof (draw_index _ (S i) H0 H1) as Hj.
    set (j := Math_floor (draws g (next g) * inject_Z (Z.of_nat (S i) + 1))) in *.
    rewrite <- (Z2Nat.id j) by lia.
    rewrite !jsGet_some.
    destruct (lookup_lt_is_Some_2 l (Z.to_nat j)) as [x Hx]; [lia|].
    destruct (lookup_lt_is_Some_2 l (S i)) as [y Hy]; [lia|].
    rewrite Hx, Hy.
    rewrite jsSet_some by lia.
    rewrite jsSet_some by (rewrite length_insert; lia).
    set (g' := {| draws := draws g; next := S (next g) |}).
    destruct (IH (<[Z.to_nat j:=y]> (<[S i:=x]> l)) g') as (l' & E & P & U).
    { exact (Math_random_unit g Hg). }
    { rewrite !length_insert. lia. }
    exists l'. split; [exact E|]. split; [|exact U].
    rewrite P. apply exchange_perm; assumption.
Qed.

Lemma shuffleArray_perm {T} (array : list T) (g : Rng) :
  unit_interval g ->
  exists l', (shuffleArray array g).1 = Some <$> l' /\ l' ≡ₚ array /\
             unit_interval (shuffleArray array g).2.
Proof.
  intros Hg. unfold shuffleArray. rewrite length_fmap.
  destruct array as [|a array].
  - exists []. simpl. auto.
  - apply shuffleLoop_perm; [exact Hg | simpl; lia].
Qed.

Lemma shuffleArray_length {T} (array : list T) (g : Rng) :
  unit_interval g -> length (shuffleArray array g).1 = length array.
Proof.
  intros Hg. destruct (shuffleArray_perm array g Hg) as (l' & E & P & _).
  rewrite E, length_fmap, P. reflexivity.
Qed.

Lemma take_shuffled_full (pool l' : list BingoItem) (n : nat) (i : Z) :
  l' ≡ₚ pool -> (n <= length pool)%nat ->
  fullCard pool n {| card_id := i; cells := take n (Some <$> l') |}.
Proof.
  intros P Hn. unfold fullCard. cbn [cells]. split; [|split].
  - rewrite length_take_le; [reflexivity|]. rewrite length_fmap, P. exact Hn.
  - intros e He. apply subseteq_take in He.
    apply list_elem_of_fmap in He as (x & -> & Hx).
    exists x. split; [reflexivity|]. rewrite <- P. exact Hx.
  - intros Hnd. apply (sublist_NoDup (take n (Some <$> l')) (Some <$> l'));
      [|apply sublist_take].
    apply NoDup_fmap_2; [intros a b [= ->]; reflexivity|].
    rewrite P. exact Hnd.
Qed.

(** With enough items the card loop runs to its end and appends one
    full card per iteration, numbered from [i] upwards. *)
Lemma cardsLoop_full (steps : nat) (i : Z) (n : nat) (pool : list BingoItem)
    (acc : list BingoCardData) (g : Rng) :
  unit_interval g -> (n <= length pool)%nat ->
  exists new,
    (cardsLoop steps i n pool acc g).1 = Some (acc ++ new) /\
    card_id <$> new = seqZ i (Z.of_nat steps) /\
    Forall (fullCard pool n) new.
Proof.
  revert i acc g. induction steps as [|k IH]; intros i acc g Hg Hn.
  - exists []. simpl. rewrite app_nil_r. auto.
  - cbn [cardsLoop].
    destruct (shuffleArray_perm pool g Hg) as (l' & E & P & U).
    pose proof (shuffleArray_length pool g Hg) as L.
    destruct (shuffleArray pool g) as [shuffled g'] eqn:Esh. cbn [fst snd] in *.
    destruct (Nat.ltb_spec (length shuffled) n) as [Hlt|_]; [lia|].
    destruct (IH (i + 1) (acc ++ [{| card_id := i; cells := take n shuffled |}]) g' U Hn)
      as (new & Hrun & Hids & Hfull).
    exists ({| card_id := i; cells := take n shuffled |} :: new).
    split; [|split].
    + rewrite Hrun, <- app_assoc. reflexivity.
    + rewrite fmap_cons, Hids. cbn [card_id].
      rewrite (seqZ_cons i (Z.of_nat (S k))) by lia.
      f_equal. f_equal; lia.
    + constructor; [|exact Hfull]. subst shuffled.
      apply take_shuffled_full; assumption.
Qed.

(** C1: when the pool holds at least rows*cols items, [generateCards]
    commits exactly [count] cards, numbered 1 to [count] in order, logs
    no error, and every card has rows*cols cells, each of them an item
    of the pool, without repetition if the pool has none; this for every
    stream of values in [0, 1) that [Math.random] may return. *)
Theorem generateCards_full (gridRows gridCols : nat) (pool : list BingoItem)
    (count : Z) (st : AppState) (g : Rng) :
  unit_interval g ->
  (gridRows * gridCols <= length pool)%nat ->
  1 <= count ->
  let st' := (generateCards gridRows gridCols pool count st g).1 in
  length (cards st') = Z.to_nat count /\
  card_id <$> cards st' = seqZ 1 count /\
  console st' = console st /\
  forall c, c ∈ cards st' ->
    length (cells c) = (gridRows * gridCols)%nat /\
    (forall e, e ∈ cells c -> exists x, e = Some x /\ x ∈ pool) /\
    (NoDup pool -> NoDup (cells c)).
Proof.
  intros Hg Hn Hc. unfold generateCards.
  destruct (cardsLoop_full (Z.to_nat count) 1 (gridRows * gridCols) pool [] g Hg Hn)
    as (new & Hrun & Hids & Hfull).
  destruct (cardsLoop _ _ _ _ _ _) as [[newCards|] g'];
    cbn [fst] in Hrun; [|discriminate].
  injection Hrun as ->. cbn [fst cards console app].
  rewrite Z2Nat.id in Hids by lia.
  split; [|split; [exact Hids|split; [reflexivity|]]].
  - rewrite <- (length_fmap card_id), Hids, length_seqZ. reflexivity.
  - intros c Hin. rewrite Forall_forall in Hfull. exact (Hfull c Hin).
Qed.

Lemma halves_unit : unit_interval halves.
Proof. intros k. split; vm_compute; congruence. Qed.

Lemma generateCards_full_witness :
  let st' := (generateCards 3 3 (numberedPool 10) 2 emptyState halves).1 in
  length (cards st') = Z.to_nat 2 /\
  card_id <$> cards st' = seqZ 1 2 /\
  console st' = console emptyState /\
  forall c, c ∈ cards st' ->
    length (cells c) = (3 * 3)%nat /\
    (forall e, e ∈ cells c -> exists x, e = Some x /\ x ∈ numberedPool 10) /\
    (NoDup (numberedPool 10) -> NoDup (cells c)).
Proof.
  apply (generateCards_full 3 3 (numberedPool 10) 2 emptyState halves).
  - exact halves_unit.
  - vm_compute. lia.
  - lia.
Defined.

(** C4: when the pool holds fewer than rows*cols items and at least one
    card is requested, [generateCards] logs the error and returns
    without calling [setCards]: the card state is what it was. *)
Theorem generateCards_short (gridRows gridCols : nat) (pool : list BingoItem)
    (count : Z) (st : AppState) (g : Rng) :
  unit_interval g ->
  (length pool < gridRows * gridCols)%nat ->
  1 <= count ->
  let st' := (generateCards gridRows gridCols pool count st g).1 in
  cards st' = cards st /\
  console st' = console st ++ ["Not enough items to fill a card!"%string].
Proof.
  intros Hg Hn Hc. unfold generateCards.
  destruct (Z.to_nat count) as [|k] eqn:Ek; [lia|].
  cbn [cardsLoop].
  pose proof (shuffleArray_length pool g Hg) as L.
  destruct (shuffleArray pool g) as [shuffled g']. cbn [fst] in L.
  destruct (Nat.ltb_spec (length shuffled) (gridRows * gridCols)) as [_|Hge]; [|lia].
  cbn. split; reflexivity.
Qed.

Lemma generateCards_short_witness :
  let st' := (generateCards 3 3 (numberedPool 5) 1
                {| cards := [{| card_id := 1; cells := [] |}]; console := [] |} halves).1 in
  cards st' = [{| card_id := 1; cells := [] |}] /\
  console st' = [] ++ ["Not enough items to fill a card!"%string].
Proof.
  apply (generateCards_short 3 3 (numberedPool 5) 1
           {| cards := [{| card_id := 1; cells := [] |}]; console := [] |} halves).
  - exact halves_unit.
  - vm_compute. lia.
  - lia.
Defined.

(** C10: for a count of zero or less the loop body never runs, so the
    pool is not examined: [generateCards] commits the empty card list
    and logs nothing, whatever the pool. *)
Theorem generateCards_none (gridRows gridCols : nat) (pool : list BingoItem)
    (count : Z) (st : AppState) (g : Rng) :
  count <= 0 ->
  generateCards gridRows gridCols pool count st g =
    ({| cards := []; console := console st |}, g).
Proof.
  intros Hc. unfold generateCards.
  replace (Z.to_nat count) with 0%nat by lia. reflexivity.
Qed.

Lemma generateCards_none_witness :
  generateCards 3 3 (numberedPool 5) 0 emptyState halves =
    ({| cards := []; console := console emptyState |}, halves).
Proof.
  apply (generateCards_none 3 3 (numberedPool 5) 0 emptyState halves). lia.
Defined.

End CardsFacts.

(** ** Page layout: card placement *)

Module CardLayoutFacts.
Import Layout.
Local Open Scope float_scope.

Lemma placeCards_app (n i : nat) (l1 l2 : list float) (st : CardCursor) :
  placeCards n i (l1 ++ l2) st =
  placeCards n (i + length l1) l2 (placeCards n i l1 st).
Proof.
  revert i st. induction l1 as [|h l1 IH]; intros i st; simpl.
  - rewrite Nat.add_0_r. reflexivity.
  - rewrite IH. f_equal. lia.
Qed.

(** One more iteration of the loop is one more call of [placeCard]. *)
Lemma cursorAfter_S (heights : list float) (i : nat) (h : float) :
  heights !! i = Some h ->
  cursorAfter heights (S i) = placeCard (length heights) i h (cursorAfter heights i).
Proof.
  intros Hi. unfold cursorAfter.
  rewrite (take_S_r _ _ _ Hi), placeCards_app. simpl.
  rewrite length_take_le; [reflexivity|].
  apply lookup_lt_Some in Hi. lia.
Qed.

Lemma placeCard_images (n i : nat) (h : float) (st : CardCursor) :
  exists img, images (cardPdf (placeCard n i h st)) = images (cardPdf st) ++ [img] /\
    imgH img = h.
Proof.
  unfold placeCard.
  destruct (i mod 2 =? 0)%nat; [destruct (_ <? _)|]; cbn; eauto.
Qed.

Lemma cursorAfter_images (heights : list float) (k : nat) :
  (k <= length heights)%nat ->
  length (images (cardPdf (cursorAfter heights k))) = k.
Proof.
  induction k as [|k IH]; intros Hk; [reflexivity|].
  destruct (lookup_lt_is_Some_2 heights k) as [h Hh]; [lia|].
  rewrite (cursorAfter_S _ _ _ Hh).
  destruct (placeCard_images (length heights) k h (cursorAfter heights k)) as (img & -> & _).
  rewrite length_app, IH by lia. simpl. lia.
Qed.

Lemma last_index_eqb (n i : nat) :
  (Z.of_nat i =? Z.of_nat n - 1)%Z = (S i =? n)%nat.
Proof.
  destruct (Z.eqb_spec (Z.of_nat i) (Z.of_nat n - 1)),
    (Nat.eqb_spec (S i) n); try reflexivity; lia.
Qed.

(** What one iteration does to the cursor and the document. *)
Lemma placeCard_spec (n i : nat) (h : float) (st : CardCursor) :
  let st' := placeCard n i h st in
  exists img,
    images (cardPdf st') = images (cardPdf st) ++ [img] /\
    cursorY st' =
      (if (i mod 2 =? 1)%nat || (S i =? n)%nat
       then imgY img + (h + 10) else imgY img) /\
    (pageCount (cardPdf st') = pageCount (cardPdf st) -> imgY img = cursorY st) /\
    ((i mod 2)%nat = 1%nat -> imgY img = cursorY st) /\
    ((i mod 2)%nat = 0%nat -> (pageHeight - margin <? cursorY st + h) = true ->
       pageCount (cardPdf st') = S (pageCount (cardPdf st)) /\
       imgY img = margin + 10).
Proof.
  unfold placeCard. rewrite last_index_eqb.
  destruct (Nat.eqb_spec (i mod 2) 0) as [E0|E0].
  - destruct (pageHeight - margin <? cursorY st + h) eqn:Eb.
    + eexists; cbn [cardPdf images addImage addPage cursorY pageCount imgY].
      split; [reflexivity|]. split; [reflexivity|].
      split; [intros; lia|]. split; [intros; lia|]. auto.
    + eexists; cbn [cardPdf images addImage addPage cursorY pageCount imgY].
      split; [reflexivity|]. split; [reflexivity|].
      split; [reflexivity|]. split; [reflexivity|].
      intros _ Hlt. discriminate.
  - eexists; cbn [cardPdf images addImage addPage cursorY pageCount imgY].
    split; [reflexivity|]. split; [reflexivity|].
    split; [reflexivity|]. split; [reflexivity|]. intros; lia.
Qed.

(** C8: in the card loop over any heights, in the arithmetic of the
    code: after card [i] the cursor is where the card was put unless
    [i] is odd or the last index, and then it is that position plus the
    card's height plus 10; a card is put at the cursor unless a page was
    added in front of it; and when the check in front of an even [i]
    adds a page, card [i] is put at the top padding [margin + 10] and
    the cursor after card [i + 1] is [margin + 10] plus the height of
    card [i + 1] plus 10. *)
Theorem cursor_advance (heights : list float) (i : nat) (h : float) :
  heights !! i = Some h ->
  let n := length heights in
  let before := cursorAfter heights i in
  let after := cursorAfter heights (S i) in
  exists img,
    images (cardPdf after) !! i = Some img /\
    cursorY after =
      (if (i mod 2 =? 1)%nat || (S i =? n)%nat
       then imgY img + (h + 10) else imgY img) /\
    (pageCount (cardPdf after) = pageCount (cardPdf before) ->
       imgY img = cursorY before) /\
    ((i mod 2)%nat = 0%nat -> (pageHeight - margin <? cursorY before + h) = true ->
       pageCount (cardPdf after) = S (pageCount (cardPdf before)) /\
       imgY img = margin + 10 /\
       forall h', heights !! S i = Some h' ->
         cursorY (cursorAfter heights (S (S i))) = margin + 10 + (h' + 10)).
Proof.
  intros Hi n before after.
  pose proof (lookup_lt_Some _ _ _ Hi) as Hlt.
  assert (Hn : n = length heights) by reflexivity.
  subst after. rewrite (cursorAfter_S _ _ _ Hi). fold n before.
  destruct (placeCard_spec n i h before) as (img & Himg & Hcur & Hsame & _ & Hbreak).
  exists img. split; [|split; [exact Hcur|split; [exact Hsame|]]].
  - rewrite Himg. apply list_lookup_middle.
    subst before. symmetry. apply cursorAfter_images. lia.
  - intros Heven Hover. destruct (Hbreak Heven Hover) as [Hpage Htop].
    split; [exact Hpage|]. split; [exact Htop|].
    intros h' Hi'.
    pose proof (lookup_lt_Some _ _ _ Hi') as Hlt'. fold n in Hlt'.
    rewrite (cursorAfter_S _ _ _ Hi'), (cursorAfter_S _ _ _ Hi). fold n before.
    destruct (placeCard_spec n (S i) h' (placeCard n i h before))
      as (img' & _ & Hcur' & _ & Hodd & _).
    assert (Hm : (S i mod 2)%nat = 1%nat).
    { replace (S i) with (1 + i)%nat by lia.
      rewrite <- Nat.Div0.add_mod_idemp_r, Heven. reflexivity. }
    rewrite Hcur', (Hodd Hm), Hm. cbn [Nat.eqb orb].
    rewrite Hcur, Heven.
    destruct (Nat.eqb_spec (S i) n) as [E|_]; [lia|].
    cbn [Nat.eqb orb]. rewrite Htop. reflexivity.
Qed.

Lemma cursor_advance_witness :
  exists img,
    images (cardPdf (cursorAfter [300; 100] 1)) !! 0%nat = Some img /\
    cursorY (cursorAfter [300; 100] 1) =
      (if (0 mod 2 =? 1)%nat || (1 =? length [300; 100])%nat
       then imgY img + (300 + 10) else imgY img) /\
    (pageCount (cardPdf (cursorAfter [300; 100] 1)) =
       pageCount (cardPdf (cursorAfter [300; 100] 0)) ->
     imgY img = cursorY (cursorAfter [300; 100] 0)) /\
    ((0 mod 2)%nat = 0%nat ->
     (pageHeight - margin <? cursorY (cursorAfter [300; 100] 0) + 300) = true ->
       pageCount (cardPdf (cursorAfter [300; 100] 1)) =
         S (pageCount (cardPdf (cursorAfter [300; 100] 0))) /\
       imgY img = margin + 10 /\
       forall h', [300; 100] !! 1%nat = Some h' ->
         cursorY (cursorAfter [300; 100] 2) = margin + 10 + (h' + 10)).
Proof.
  apply (cursor_advance [300; 100] 0 300). reflexivity.
Defined.

End CardLayoutFacts.

(** ** Page layout: calling-list pagination *)

Module PaginationFacts.
Import Layout.
Local Open Scope float_scope.

(** The two reversals give the breakpoints back in their order. *)
Lemma chooseSlice_breakpoints (m : float) (st : ListState) :
  (chooseSlice m st).1 = rowBreakpoints st.
Proof.
  unfold chooseSlice. destruct (m <? remainingSrcHeight st); [|reflexivity].
  destruct (List.find _ _); [destruct (truthyBreak _)|]; cbn [fst]; apply rev_involutive.
Qed.

Lemma sliceStep_fields (m ratio : float) (st : ListState) :
  let h := (chooseSlice m st).2 in
  let st' := sliceStep m ratio st in
  rowBreakpoints st' = rowBreakpoints st /\
  currentSrcY st' = currentSrcY st + h /\
  remainingSrcHeight st' = remainingSrcHeight st - h /\
  slices st' = slices st ++ [{| srcY := currentSrcY st; sliceHeight := h |}] /\
  pageCount (listPdf st') = S (pageCount (listPdf st)) /\
  images (listPdf st') = images (listPdf st) ++
    [{| imgPage := S (pageCount (listPdf st)); imgX := margin; imgY := margin;
        imgW := contentWidth; imgH := h * ratio |}].
Proof.
  pose proof (chooseSlice_breakpoints m st) as Hb.
  unfold sliceStep. destruct (chooseSlice m st) as [bps h]. cbn in *.
  auto 7.
Qed.


(** C3, at a table of three rows (bottoms at 47, 900 and 1940 of 1940)
    captured on a 1200 x 3879 canvas: in the second iteration more than
    a page is left and exactly one recorded row bottom lies strictly
    between the cursor and the cut point, yet the strip does not end at
    it: its height is the rounded difference, the cursor lands below the
    row bottom, and the third iteration cuts the same row bottom again,
    a strip of 2^-42 pixels on a page of its own. *)
Theorem safe_break_missed :
  let m := maxSrcHeightOf 1200 in
  let ratio := canvasToPdfRatio 1200 in
  let bps := recordBreakpoints 3879 1940 threeRows in
  let st1 := sliceStep m ratio (listStart bps 3879 newPdf) in
  let st2 := sliceStep m ratio st1 in
  let st3 := sliceStep m ratio st2 in
  bps = [0x1.77e73116b2688p+6; 0x1.c1e24f2cddb0dp+10; 3879] /\
  (m <? remainingSrcHeight st1) = true /\
  List.filter (fun b => (currentSrcY st1 <? b) && (b <? currentSrcY st1 + m)) bps
    = [0x1.c1e24f2cddb0dp+10] /\
  slices st2 = slices st1 ++
    [{| srcY := currentSrcY st1;
        sliceHeight := 0x1.c1e24f2cddb0dp+10 - currentSrcY st1 |}] /\
  currentSrcY st2 = 0x1.c1e24f2cddb0cp+10 /\
  (currentSrcY st2 <? 0x1.c1e24f2cddb0dp+10) = true /\
  slices st3 = slices st2 ++
    [{| srcY := 0x1.c1e24f2cddb0cp+10; sliceHeight := 0x1p-42 |}] /\
  pageCount (listPdf st3) = S (pageCount (listPdf st2)).
Proof. vm_compute. repeat split; reflexivity. Qed.


End PaginationFacts.

(** ** Subject detection *)

Module SubjectFacts.
Import Subject.

(** [detectSubject] never ends with an exception. *)
Lemma detectSubject_returns (call : Completion JsValue) (log : list string) :
  exists ctx, (detectSubject call log).1 = Returned ctx.
Proof.
  unfold detectSubject. destruct (detectBody call); cbn; eauto.
Qed.

(** C9 as stated fails: on a failed provider call [detectSubject]
    returns a result, the default subject, and raises nothing. *)
Lemma detectSubject_swallows :
  (detectSubject (Thrown "API call failed: Bad Gateway") []).1 =
    Returned defaultContext /\
  forall e, (detectSubject (Thrown "API call failed: Bad Gateway") []).1 <> Thrown e.
Proof. split; [reflexivity | intros e; discriminate]. Qed.

(** C9 (amended): whenever the provider call fails, [detectSubject]
    logs the error and returns the default subject metadata, subject
    "Algemeen" and [isMath] false, and its caller goes on to the
    confirmation step. *)
Theorem detectSubject_failure (e : string) (log : list string) :
  detectSubject (Thrown e) log =
    (Returned {| subject := JString "Algemeen"; isMath := false |},
     log ++ [("Error detecting subject: " ++ e)%string]) /\
  (handleStartGeneration (Thrown e) log).1 = CONFIRMING.
Proof. split; reflexivity. Qed.

End SubjectFacts.

(** ** Pool sizing: further properties *)

Module PoolSizingMore.
Import PoolSizing Combinatorics.

Lemma choose_0 (n : nat) : choose n 0 = 1%nat.
Proof. destruct n; reflexivity. Qed.

Lemma choose_S (n k : nat) :
  choose (S n) (S k) = (choose n k + choose n (S k))%nat.
Proof. reflexivity. Qed.

Lemma choose_above (n k : nat) : (n < k)%nat -> choose n k = 0%nat.
Proof.
  revert k. induction n as [|n IH]; intros [|k] H; try lia; simpl; [reflexivity|].
  rewrite !IH by lia. reflexivity.
Qed.

Lemma choose_diag (n : nat) : choose n n = 1%nat.
Proof.
  induction n as [|n IH]; [reflexivity|]. simpl.
  rewrite IH, choose_above by lia. reflexivity.
Qed.

Lemma choose_sym (n k : nat) : (k <= n)%nat -> choose n k = choose n (n - k).
Proof.
  revert k. induction n as [|n IH]; intros [|k] H; try lia.
  - reflexivity.
  - rewrite Nat.sub_0_r, choose_diag. reflexivity.
  - destruct (decide (k = n)) as [->|Hne].
    + replace (S n - S n)%nat with 0%nat by lia. simpl.
      rewrite choose_diag, choose_above by lia. reflexivity.
    + replace (S n - S k)%nat with (S (n - S k)) by lia. simpl.
      rewrite (IH k) by lia. rewrite (IH (S k)) by lia.
      replace (n - k)%nat with (S (n - S k)) by lia. lia.
Qed.

(** The step from one coefficient of a row to the next. *)
Lemma choose_step (n k : nat) :
  (S k * choose n (S k) + k * choose n k = n * choose n k)%nat.
Proof.
  revert k. induction n as [|n IH]; intros k.
  - destruct k; simpl; lia.
  - destruct k as [|j].
    + pose proof (IH 0%nat) as H0. rewrite choose_S, !choose_0 in *. lia.
    + pose proof (IH j) as Hj. pose proof (IH (S j)) as HSj.
      rewrite !choose_S. nia.
Qed.

Lemma Math_round_integer (q : Q) (z : Z) : (q == inject_Z z)%Q -> Math_round q = z.
Proof.
  intros E. unfold Math_round.
  pose proof (Qfloor_le (q + (1 # 2))) as H1.
  pose proof (Qlt_floor (q + (1 # 2))) as H2.
  set (f := Qfloor (q + (1 # 2))) in *.
  rewrite E in H1, H2.
  assert (A : (inject_Z f < inject_Z (z + 1))%Q).
  { rewrite inject_Z_plus. change (inject_Z 1) with 1%Q. lra. }
  assert (B : (inject_Z z < inject_Z (f + 1))%Q) by lra.
  rewrite <- Zlt_Qlt in A, B. lia.
Qed.

(** The loop of [getCombinations] walks along row [N] of Pascal's
    triangle. *)
Lemma combLoop_choose (N : nat) (steps j : nat) (res : Q) :
  (j + steps <= N)%nat ->
  (res == inject_Z (Z.of_nat (choose N j)))%Q ->
  (combLoop (Z.of_nat N) steps (Z.of_nat j + 1) res ==
   inject_Z (Z.of_nat (choose N (j + steps))))%Q.
Proof.
  revert j res. induction steps as [|s IH]; intros j res Hle E.
  - rewrite Nat.add_0_r. exact E.
  - cbn [combLoop].
    replace (Z.of_nat j + 1 + 1) with (Z.of_nat (S j) + 1) by lia.
    replace (j + S s)%nat with (S j + s)%nat by lia.
    apply IH; [lia|].
    rewrite E.
    pose proof (choose_step N j) as Hs.
    assert (Hz : Z.of_nat (choose N (S j)) * (Z.of_nat j + 1) =
                 Z.of_nat (choose N j) * (Z.of_nat N - (Z.of_nat j + 1) + 1)) by nia.
    apply (f_equal inject_Z) in Hz. rewrite !inject_Z_mult in Hz.
    assert (Hj : ~ (inject_Z (Z.of_nat j + 1) == 0)%Q).
    { change 0%Q with (inject_Z 0). rewrite inject_Z_injective. lia. }
    apply (Qmult_inj_r _ _ (inject_Z (Z.of_nat j + 1)) Hj).
    rewrite Hz. field. exact Hj.
Qed.

(** X2: wherever its products and quotients are integers that a double
    holds exactly, [getCombinations(n, r)] is the binomial coefficient
    of [n] and [r], zero when [r] exceeds [n]. *)
Theorem getCombinations_choose (N R : nat) :
  getCombinationsExact (Z.of_nat N) (Z.of_nat R) = true ->
  getCombinations (Z.of_nat N) (Z.of_nat R) = Z.of_nat (choose N R).
Proof.
  intros _. unfold getCombinations.
  destruct (Z.gtb_spec (Z.of_nat R) (Z.of_nat N)) as [Hgt|Hle].
  { rewrite choose_above by lia. reflexivity. }
  destruct (Z.eqb_spec (Z.of_nat R) 0) as [E0|N0].
  { replace R with 0%nat by lia. rewrite choose_0. reflexivity. }
  destruct (Z.eqb_spec (Z.of_nat R) (Z.of_nat N)) as [En|Nn].
  { replace R with N by lia. rewrite choose_diag. reflexivity. }
  cbn [orb].
  assert (Hstart : (1 == inject_Z (Z.of_nat (choose N 0)))%Q).
  { rewrite choose_0. reflexivity. }
  destruct (Qltb (inject_Z (Z.of_nat N) / 2) (inject_Z (Z.of_nat R))).
  - apply Math_round_integer.
    replace (Z.to_nat (Z.of_nat N - Z.of_nat R)) with (N - R)%nat by lia.
    rewrite (choose_sym N R) by lia.
    apply (combLoop_choose N (N - R) 0 1); [lia | exact Hstart].
  - apply Math_round_integer. rewrite Nat2Z.id.
    apply (combLoop_choose N R 0 1); [lia | exact Hstart].
Qed.

Lemma getCombinations_choose_witness :
  getCombinations (Z.of_nat 13) (Z.of_nat 9) = Z.of_nat (choose 13 9).
Proof.
  apply (getCombinations_choose 13 9). vm_compute. reflexivity.
Defined.

Lemma poolSearch_least (k cc : Z) (fuel : nat) (n c : Z) :
  poolSearch fuel k cc n = Some c ->
  (c <= 100 -> cc <= getCombinations c k) /\
  (forall j, n <= j < c -> getCombinations j k < cc).
Proof.
  revert n. induction fuel as [|f IH]; intros n; [discriminate|].
  simpl. destruct (Z.geb_spec (getCombinations n k) cc) as [Hge|Hlt].
  - intros [= <-]. split; [intros _; lia | intros j Hj; lia].
  - destruct (Z.gtb_spec (n + 1) 100) as [Hgt|Hle].
    + intros [= <-]. split; [lia|]. intros j Hj.
      replace j with n by lia. exact Hlt.
    + intros Hrun. destruct (IH _ Hrun) as [H1 H2]. split; [exact H1|].
      intros j Hj. destruct (decide (j = n)) as [->|Hne]; [exact Hlt|].
      apply H2. lia.
Qed.

(** X1: when the pool-size search stops at a candidate of at most 100
    and the combination counts of the candidates up to it are computed
    without rounding, that candidate offers at least [cardCount]
    combinations and no smaller candidate, from rows*cols on, does: it is
    the least sufficient pool size. *)
Theorem calculatedMinPool_least (gridRows gridCols : nat) (cardCount c : Z) :
  calculatedMinPool gridRows gridCols cardCount = Some c ->
  c <= 100 ->
  let k := getItemsPerCard gridRows gridCols in
  (forall j, k <= j <= c -> getCombinationsExact j k = true) ->
  k <= c /\
  cardCount <= getCombinations c k /\
  forall j, k <= j < c -> getCombinations j k < cardCount.
Proof.
  intros Hrun Hc k _. unfold calculatedMinPool in Hrun. fold k in Hrun.
  destruct (poolSearch_least _ _ _ _ _ Hrun) as [H1 H2].
  destruct (PoolSizingFacts.poolSearch_total k cardCount (searchFuel k) k)
    as (c' & Hs & Hlo & _); [unfold searchFuel; lia|].
  rewrite Hrun in Hs. injection Hs as <-.
  split; [exact Hlo|]. split; [exact (H1 Hc) | exact H2].
Qed.

Lemma calculatedMinPool_least_witness :
  getItemsPerCard 3 3 <= 11 /\
  30 <= getCombinations 11 (getItemsPerCard 3 3) /\
  forall j, getItemsPerCard 3 3 <= j < 11 ->
    getCombinations j (getItemsPerCard 3 3) < 30.
Proof.
  apply (calculatedMinPool_least 3 3 30 11); [vm_compute; reflexivity | lia |].
  intros j Hj. apply PoolSizingFacts.ceiling_example_exact.
  change (getItemsPerCard 3 3) with 9 in Hj. lia.
Defined.

Lemma poolSearch_mono (k cc cc' : Z) (fuel : nat) (n c c' : Z) :
  cc <= cc' ->
  poolSearch fuel k cc n = Some c -> poolSearch fuel k cc' n = Some c' -> c <= c'.
Proof.
  intros Hcc. revert n. induction fuel as [|f IH]; intros n; [discriminate|].
  simpl.
  destruct (Z.geb_spec (getCombinations n k) cc) as [Hge|Hlt];
    destruct (Z.geb_spec (getCombinations n k) cc') as [Hge'|Hlt']; try lia.
  - intros [= <-] [= <-]. lia.
  - intros [= <-]. destruct (Z.gtb_spec (n + 1) 100).
    + intros [= <-]. lia.
    + intros Hrun. destruct (poolSearch_least _ _ _ _ _ Hrun) as [_ H2].
      destruct (Z.le_gt_cases n c') as [Hok|Hbad]; [exact Hok|].
      exfalso. clear H2.
      assert (Hlo : n + 1 <= c').
      { clear -Hrun. revert Hrun. generalize (n + 1). clear n.
        induction f as [|f IHf]; intros n; [discriminate|]. simpl.
        destruct (getCombinations n k >=? cc'); [intros [= <-]; lia|].
        destruct (n + 1 >? 100); [intros [= <-]; lia|].
        intros Hrun. specialize (IHf _ Hrun). lia. }
      lia.
  - destruct (Z.gtb_spec (n + 1) 100).
    + intros [= <-] [= <-]. lia.
    + apply IH.
Qed.

(** X3: asking for more cards never lowers the suggested pool size. *)
Theorem suggestedMin_monotone (gridRows gridCols : nat) (cardCount cardCount' s s' : Z) :
  cardCount <= cardCount' ->
  suggestedMin gridRows gridCols cardCount = Some s ->
  suggestedMin gridRows gridCols cardCount' = Some s' ->
  s <= s'.
Proof.
  intros Hcc. unfold suggestedMin, calculatedMinPool.
  destruct (poolSearch _ _ cardCount _) as [c|] eqn:E; [|discriminate].
  destruct (poolSearch _ _ cardCount' _) as [c'|] eqn:E'; [|discriminate].
  intros [= <-] [= <-].
  pose proof (poolSearch_mono _ _ _ _ _ _ _ Hcc E E'). lia.
Qed.

Lemma suggestedMin_monotone_witness : 11 <= 12.
Proof.
  apply (suggestedMin_monotone 3 3 30 100 11 12); [lia | |]; vm_compute; reflexivity.
Defined.

End PoolSizingMore.

(** ** Card assembly: further properties *)

Module CardsMore.
Import Cards CardsFacts.

Lemma shuffleLoop_draws {T} (i : nat) (arr : JsArray T) (g : Rng) :
  next (shuffleLoop i arr g).2 = (next g + i)%nat /\
  draws (shuffleLoop i arr g).2 = draws g.
Proof.
  revert arr g. induction i as [|i IH]; intros arr g.
  - simpl. split; [lia | reflexivity].
  - cbn [shuffleLoop Math_random].
    match goal with |- context [shuffleLoop i ?a ?g'] =>
      destruct (IH a g') as [H1 H2] end.
    rewrite H1, H2. cbn. split; [lia | reflexivity].
Qed.

(** X4: for every stream of [Math.random] values in [0, 1),
    [shuffleArray] returns a rearrangement of its input, nothing lost,
    added or left undefined, and uses exactly one draw per element but
    the first. *)
Theorem shuffleArray_permutation {T} (array : list T) (g : Rng) :
  unit_interval g ->
  exists shuffled,
    (shuffleArray array g).1 = Some <$> shuffled /\
    shuffled ≡ₚ array /\
    next (shuffleArray array g).2 = (next g + (length array - 1))%nat /\
    draws (shuffleArray array g).2 = draws g.
Proof.
  intros Hg. destruct (shuffleArray_perm array g Hg) as (l' & E & P & _).
  exists l'. split; [exact E|]. split; [exact P|].
  unfold shuffleArray. rewrite length_fmap. apply shuffleLoop_draws.
Qed.

Lemma shuffleArray_permutation_witness :
  exists shuffled,
    (shuffleArray (numberedPool 5) halves).1 = Some <$> shuffled /\
    shuffled ≡ₚ numberedPool 5 /\
    next (shuffleArray (numberedPool 5) halves).2 =
      (next halves + (length (numberedPool 5) - 1))%nat /\
    draws (shuffleArray (numberedPool 5) halves).2 = draws halves.
Proof.
  apply (shuffleArray_permutation (numberedPool 5) halves). exact halves_unit.
Defined.

(** Every card the loop appends is the front of a shuffled pool. *)
Lemma cardsLoop_prefix (steps : nat) (i : Z) (n : nat) (pool : list BingoItem)
    (acc : list BingoCardData) (g : Rng) :
  unit_interval g -> (n <= length pool)%nat ->
  exists new,
    (cardsLoop steps i n pool acc g).1 = Some (acc ++ new) /\
    Forall (fun c => exists l', l' ≡ₚ pool /\ cells c = take n (Some <$> l')) new.
Proof.
  revert i acc g. induction steps as [|k IH]; intros i acc g Hg Hn.
  - exists []. simpl. rewrite app_nil_r. auto.
  - cbn [cardsLoop].
    destruct (shuffleArray_perm pool g Hg) as (l' & E & P & U).
    pose proof (shuffleArray_length pool g Hg) as L.
    destruct (shuffleArray pool g) as [shuffled g'] eqn:Esh. cbn [fst snd] in *.
    destruct (Nat.ltb_spec (length shuffled) n) as [Hlt|_]; [lia|].
    destruct (IH (i + 1) (acc ++ [{| card_id := i; cells := take n shuffled |}]) g' U Hn)
      as (new & Hrun & Hall).
    exists ({| card_id := i; cells := take n shuffled |} :: new).
    split; [rewrite Hrun, <- app_assoc; reflexivity|].
    constructor; [|exact Hall]. exists l'. subst shuffled. auto.
Qed.

(** X5: when the pool holds exactly rows*cols items, every card that
    [generateCards] commits holds every item of the pool: the cards can
    only differ in the order of their cells. *)
Theorem generateCards_exact_pool (gridRows gridCols : nat) (pool : list BingoItem)
    (count : Z) (st : AppState) (g : Rng) :
  unit_interval g ->
  length pool = (gridRows * gridCols)%nat ->
  forall c, c ∈ cards (generateCards gridRows gridCols pool count st g).1 ->
    cells c ≡ₚ Some <$> pool.
Proof.
  intros Hg Hlen c. unfold generateCards.
  destruct (cardsLoop_prefix (Z.to_nat count) 1 (gridRows * gridCols) pool [] g Hg)
    as (new & Hrun & Hall); [lia|].
  destruct (cardsLoop _ _ _ _ _ _) as [[newCards|] g'];
    cbn [fst] in Hrun; [|discriminate].
  injection Hrun as ->. cbn [fst cards app]. intros Hin.
  rewrite Forall_forall in Hall. destruct (Hall c Hin) as (l' & P & ->).
  rewrite take_ge by (rewrite length_fmap, P; lia).
  rewrite P. reflexivity.
Qed.

Lemma generateCards_exact_pool_witness :
  length (numberedPool 9) = (3 * 3)%nat /\
  forall c, c ∈ cards (generateCards 3 3 (numberedPool 9) 2 emptyState halves).1 ->
    cells c ≡ₚ Some <$> numberedPool 9.
Proof.
  split; [reflexivity|].
  apply (generateCards_exact_pool 3 3 (numberedPool 9) 2 emptyState halves).
  - exact halves_unit.
  - reflexivity.
Defined.

End CardsMore.

(** ** Card rendering *)

Module RenderingFacts.
Import Rendering.

Lemma gridRowsOf_concat {T} (cells : list T) (rows cols : nat) :
  concat (gridRowsOf cells rows cols) = take (rows * cols) cells.
Proof.
  unfold gridRowsOf. induction rows as [|r IH]; [reflexivity|].
  rewrite seq_S, fmap_app, concat_app, IH. simpl. rewrite app_nil_r.
  unfold jsSlice.
  replace ((r + 1) * cols - r * cols)%nat with cols by lia.
  rewrite take_take_drop. f_equal. lia.
Qed.

(** X6: [BingoCard] cuts a card of rows*cols cells into exactly [rows]
    rows of [cols] cells each which, read in order, are the card's cells
    again: no cell is dropped, repeated or moved. *)
Theorem gridRowsOf_full {T} (cells : list T) (rows cols : nat) :
  length cells = (rows * cols)%nat ->
  length (gridRowsOf cells rows cols) = rows /\
  Forall (fun row => length row = cols) (gridRowsOf cells rows cols) /\
  concat (gridRowsOf cells rows cols) = cells.
Proof.
  intros Hlen. split; [|split].
  - unfold gridRowsOf. rewrite length_fmap, length_seq. reflexivity.
  - unfold gridRowsOf. apply Forall_fmap, Forall_forall. intros i Hi.
    apply elem_of_seq in Hi. cbn. unfold jsSlice.
    rewrite length_take, length_drop, Hlen. nia.
  - rewrite gridRowsOf_concat. apply take_ge. lia.
Qed.

Lemma gridRowsOf_full_witness :
  length (gridRowsOf (seq 0 12) 3 4) = 3%nat /\
  Forall (fun row => length row = 4%nat) (gridRowsOf (seq 0 12) 3 4) /\
  concat (gridRowsOf (seq 0 12) 3 4) = seq 0 12.
Proof.
  apply (gridRowsOf_full (seq 0 12) 3 4). reflexivity.
Defined.

(** X7: whatever the length of the cell array, the rows [BingoCard]
    shows are together its first rows*cols cells: a card that is too
    short is shown with short or empty rows, one that is too long loses
    its tail. *)
Theorem gridRowsOf_prefix {T} (cells : list T) (rows cols : nat) :
  length (gridRowsOf cells rows cols) = rows /\
  concat (gridRowsOf cells rows cols) = take (rows * cols) cells /\
  Forall (fun row => (length row <= cols)%nat) (gridRowsOf cells rows cols).
Proof.
  split; [|split].
  - unfold gridRowsOf. rewrite length_fmap, length_seq. reflexivity.
  - apply gridRowsOf_concat.
  - unfold gridRowsOf. apply Forall_fmap, Forall_forall. intros i _.
    cbn. unfold jsSlice. rewrite length_take. lia.
Qed.

End RenderingFacts.

(** ** The generation workflow *)

Module WorkflowFacts.
Import Cards Subject Workflow CardsFacts.

(** X8: [handleConfirmAndGenerate] ends in [SUCCESS] with the new pool
    stored as soon as the provider returned one, also when that pool is
    too small for a card: then the error is only logged and the cards
    shown are the previous ones. *)
Theorem confirm_short_pool (gridRows gridCols : nat) (cardCount : Z)
    (pool : list BingoItem) (c : Component) (g : Rng) :
  unit_interval g ->
  (length pool < gridRows * gridCols)%nat ->
  1 <= cardCount ->
  let c' := (handleConfirmAndGenerate gridRows gridCols cardCount (Returned pool) c g).1 in
  status c' = SUCCESS /\
  items c' = pool /\
  cards (view c') = cards (view c) /\
  console (view c') = console (view c) ++ ["Not enough items to fill a card!"%string].
Proof.
  intros Hg Hn Hc. unfold handleConfirmAndGenerate. cbn [status items view].
  unfold generateCards.
  destruct (Z.to_nat cardCount) as [|k] eqn:Ek; [lia|].
  cbn [cardsLoop].
  pose proof (shuffleArray_length pool g Hg) as L.
  destruct (shuffleArray pool g) as [shuffled g']. cbn [fst] in L.
  destruct (Nat.ltb_spec (length shuffled) (gridRows * gridCols)) as [_|Hge]; [|lia].
  cbn. repeat split; reflexivity.
Qed.

Lemma confirm_short_pool_witness :
  let c' :=
    (handleConfirmAndGenerate 3 3 30 (Returned (numberedPool 5)) confirming halves).1 in
  status c' = SUCCESS /\
  items c' = numberedPool 5 /\
  cards (view c') = cards (view confirming) /\
  console (view c') =
    console (view confirming) ++ ["Not enough items to fill a card!"%string].
Proof.
  apply (confirm_short_pool 3 3 30 (numberedPool 5) confirming halves).
  - exact halves_unit.
  - vm_compute. lia.
  - lia.
Defined.

End WorkflowFacts.

(** ** Card placement: further properties *)

Module CardLayoutMore.
Import Layout CardLayoutFacts.
Local Open Scope float_scope.

(** An image, once placed, stays where it is in the document. *)
Lemma images_stable (heights : list float) (i k : nat) :
  (S i <= k <= length heights)%nat ->
  images (cardPdf (cursorAfter heights k)) !! i =
  images (cardPdf (cursorAfter heights (S i))) !! i.
Proof.
  intros [Hlo Hhi]. induction k as [|k IH]; [lia|].
  destruct (decide (k = i)) as [->|Hne]; [reflexivity|].
  destruct (lookup_lt_is_Some_2 heights k) as [h Hh]; [lia|].
  rewrite (cursorAfter_S _ _ _ Hh).
  destruct (placeCard_images (length heights) k h (cursorAfter heights k)) as (img & -> & _).
  rewrite lookup_app_l by (rewrite cursorAfter_images; lia).
  apply IH; lia.
Qed.

Lemma final_image (heights : list float) (i : nat) (img : Image) :
  images (cardPdf (cursorAfter heights (length heights))) !! i = Some img ->
  exists h, heights !! i = Some h /\
    images (cardPdf (placeCard (length heights) i h (cursorAfter heights i))) !! i
      = Some img.
Proof.
  intros Hi. pose proof (lookup_lt_Some _ _ _ Hi) as Hlt.
  rewrite cursorAfter_images in Hlt by lia.
  destruct (lookup_lt_is_Some_2 heights i) as [h Hh]; [lia|].
  exists h. split; [exact Hh|].
  rewrite <- (cursorAfter_S _ _ _ Hh).
  rewrite <- (images_stable heights i (length heights)) by lia. exact Hi.
Qed.

Lemma mod2_cases (i : nat) : (i mod 2 = 0 \/ i mod 2 = 1)%nat.
Proof. pose proof (Nat.mod_upper_bound i 2). lia. Qed.

Lemma mod2_succ (i : nat) :
  ((i mod 2 = 0 -> S i mod 2 = 1) /\ (i mod 2 = 1 -> S i mod 2 = 0))%nat.
Proof.
  replace (S i) with (1 + i)%nat by lia.
  rewrite <- Nat.Div0.add_mod_idemp_r.
  split; intros ->; reflexivity.
Qed.

(** X9: the card loop puts exactly one image per card into the
    document, in card order and with the card's height; every image is
    [cardWidth] wide and sits in the left column at [margin] or in the
    right column one card width and one gap further, at 10 or at 110,
    by the parity of its index alone, so it always lies between the
    side margins. *)
Theorem card_columns (heights : list float) :
  let final := cursorAfter heights (length heights) in
  length (images (cardPdf final)) = length heights /\
  forall i img, images (cardPdf final) !! i = Some img ->
    heights !! i = Some (imgH img) /\
    imgW img = cardWidth /\
    imgX img = margin + numberOf (i mod 2) * (cardWidth + cardGap) /\
    imgX img = (if (i mod 2 =? 0)%nat then 10 else 110) /\
    (margin <=? imgX img) = true /\
    (imgX img + imgW img <=? pageWidth - margin) = true.
Proof.
  intros final. split; [apply cursorAfter_images; lia|].
  intros i img Hi. destruct (final_image _ _ _ Hi) as (h & Hh & Himg).
  revert Himg. unfold placeCard.
  set (st := cursorAfter heights i).
  assert (Hlen : length (images (cardPdf st)) = i).
  { apply cursorAfter_images. apply lookup_lt_Some in Hh. lia. }
  assert (Hx : margin + numberOf (i mod 2) * (cardWidth + cardGap)
                 = (if (i mod 2 =? 0)%nat then 10 else 110) /\
               (margin <=? margin + numberOf (i mod 2) * (cardWidth + cardGap)) = true /\
               (margin + numberOf (i mod 2) * (cardWidth + cardGap) + cardWidth
                  <=? pageWidth - margin) = true).
  { destruct (mod2_cases i) as [->| ->]; repeat split; vm_compute; reflexivity. }
  destruct (i mod 2 =? 0)%nat eqn:E0; [destruct (_ <? _)|];
    cbn [cardPdf images addImage addPage cursorY pageCount];
    (rewrite list_lookup_middle by (cbn; congruence));
    intros [= <-]; cbn [imgH imgW imgX]; rewrite ?E0 in Hx; tauto.
Qed.

(** X10: the two cards of a row, an even index and the next one, are
    put on the same page at the same height, the right one exactly one
    gap to the right of the left one's edge. *)
Theorem row_shares_line (heights : list float) (i : nat) (a b : Image) :
  (i mod 2)%nat = 0%nat ->
  let final := cursorAfter heights (length heights) in
  images (cardPdf final) !! i = Some a ->
  images (cardPdf final) !! S i = Some b ->
  imgY a = imgY b /\ imgPage a = imgPage b /\
  imgX a + imgW a + cardGap = imgX b.
Proof.
  intros Heven final Ha Hb.
  destruct (final_image _ _ _ Ha) as (h & Hh & Himg).
  destruct (final_image _ _ _ Hb) as (h' & Hh' & Himg').
  rewrite (cursorAfter_S _ _ _ Hh) in Himg'.
  pose proof (lookup_lt_Some _ _ _ Hh') as Hlt.
  revert Himg Himg'. set (st := cursorAfter heights i).
  assert (Hlen : length (images (cardPdf st)) = i).
  { apply cursorAfter_images. lia. }
  destruct (mod2_succ i) as [Hodd _]. specialize (Hodd Heven).
  unfold placeCard. rewrite Heven, Hodd, !last_index_eqb.
  destruct (Nat.eqb_spec (S i) (length heights)) as [E|_]; [lia|].
  change (0 =? 0)%nat with true. change (0 =? 1)%nat with false.
  change (1 =? 0)%nat with false. change (1 =? 1)%nat with true.
  cbn [orb].
  destruct (pageHeight - margin <? cursorY st + h);
    cbn [cardPdf images addImage addPage cursorY pageCount];
    (rewrite list_lookup_middle by (cbn; congruence));
    intros [= <-];
    (rewrite (list_lookup_middle (_ ++ [_]) []) by
        (rewrite length_app; cbn; lia));
    intros [= <-]; cbn [imgY imgPage imgX imgW];
    (split; [reflexivity|split; [reflexivity|vm_compute; reflexivity]]).
Qed.

Lemma row_shares_line_witness :
  (0 mod 2)%nat = 0%nat /\
  forall a b,
    images (cardPdf (cursorAfter [300; 100] 2)) !! 0%nat = Some a ->
    images (cardPdf (cursorAfter [300; 100] 2)) !! 1%nat = Some b ->
    imgY a = imgY b /\ imgPage a = imgPage b /\
    imgX a + imgW a + cardGap = imgX b.
Proof.
  split; [reflexivity|].
  intros a b. apply (row_shares_line [300; 100] 0 a b). reflexivity.
Defined.

(** X12: the card loop starts at most one new page per row of two
    cards: after all cards the document has at most one page more than
    there are rows, and every card image is on one of its pages. *)
Theorem card_pages_bounded (heights : list float) :
  let final := cursorAfter heights (length heights) in
  (pageCount (cardPdf final) <= 1 + (length heights + 1) / 2)%nat /\
  forall i img, images (cardPdf final) !! i = Some img ->
    (1 <= imgPage img <= pageCount (cardPdf final))%nat.
Proof.
  assert (Hinv : forall k, (k <= length heights)%nat ->
            (1 <= pageCount (cardPdf (cursorAfter heights k)) <= 1 + (k + 1) / 2)%nat /\
            Forall (fun img => (1 <= imgPage img <=
                                pageCount (cardPdf (cursorAfter heights k)))%nat)
                   (images (cardPdf (cursorAfter heights k)))).
  { induction k as [|k IH]; intros Hk.
    - change (cursorAfter heights 0) with cardStart.
      cbn [cardStart cardPdf newPdf pageCount images].
      split; [split; [lia | apply Nat.le_add_r] | constructor].
    - destruct (lookup_lt_is_Some_2 heights k) as [h Hh]; [lia|].
      destruct (IH ltac:(lia)) as (Hp & Hall). clear IH.
      rewrite (cursorAfter_S _ _ _ Hh).
      set (st := cursorAfter heights k) in *.
      assert (Hdiv : ((k mod 2 = 0 -> (S k + 1) / 2 = S ((k + 1) / 2)) /\
                      (k + 1) / 2 <= (S k + 1) / 2)%nat).
      { pose proof (Nat.div_mod_eq k 2). pose proof (Nat.div_mod_eq (k + 1) 2).
        pose proof (Nat.div_mod_eq (S k + 1) 2).
        pose proof (Nat.mod_upper_bound k 2). pose proof (Nat.mod_upper_bound (k + 1) 2).
        pose proof (Nat.mod_upper_bound (S k + 1) 2). lia. }
      destruct Hdiv as [Hd1 Hd2].
      unfold placeCard.
      destruct (Nat.eqb_spec (k mod 2) 0) as [E|E];
        [destruct (_ <? _)|];
        cbn [cardPdf pageCount images addImage addPage];
        (split; [try specialize (Hd1 E); lia|]);
        (apply Forall_app; split;
         [eapply Forall_impl; [exact Hall|]; cbn beta; intros; lia
         |constructor; [cbn [imgPage]; lia|constructor]]). }
  intros final. subst final.
  destruct (Hinv (length heights) ltac:(lia)) as [Hp Hall].
  split; [lia|]. intros i img Hi. rewrite Forall_forall in Hall.
  apply Hall, list_elem_of_lookup. eauto.
Qed.

End CardLayoutMore.

(** ** Calling-list pagination: further properties *)

Module PaginationMore.
Import Layout Strips PaginationFacts.
Local Open Scope float_scope.

Lemma chained_snoc (from to h : float) (l : list Slice) :
  chained from l to ->
  chained from (l ++ [{| srcY := to; sliceHeight := h |}]) (to + h).
Proof.
  revert from. induction l as [|s l IH]; intros from; cbn [chained app].
  - intros ->. cbn. auto.
  - intros [H1 H2]. split; [exact H1 | exact (IH _ H2)].
Qed.

(** What every iteration keeps true, for the breakpoints [bps], canvas
    height [H], ratio and document [pdf0] the loop was started with. *)
Lemma paginate_shape (bps : list float) (H m ratio : float) (pdf0 : Pdf) (fuel : nat) :
  forall st st',
    paginate fuel m ratio st = Some st' ->
    (rowBreakpoints st = bps /\
     pageCount (listPdf st) = (pageCount pdf0 + length (slices st))%nat /\
     images (listPdf st) = images pdf0 ++ stripImages pdf0 ratio (slices st) /\
     chained 0 (slices st) (currentSrcY st) /\
     remainingSrcHeight st = remainingAfter H (slices st)) ->
    (rowBreakpoints st' = bps /\
     pageCount (listPdf st') = (pageCount pdf0 + length (slices st'))%nat /\
     images (listPdf st') = images pdf0 ++ stripImages pdf0 ratio (slices st') /\
     chained 0 (slices st') (currentSrcY st') /\
     remainingSrcHeight st' = remainingAfter H (slices st')) /\
    (0 <? remainingSrcHeight st') = false.
Proof.
  induction fuel as [|f IH]; intros st st'; [discriminate|].
  cbn [paginate]. destruct (0 <? remainingSrcHeight st) eqn:E.
  2:{ intros [= <-] Hinv. split; [exact Hinv | exact E]. }
  intros Hrun (Hb & Hp & Hi & Hc & Hr). apply (IH _ _ Hrun).
  destruct (sliceStep_fields m ratio st) as (F1 & F2 & F3 & F4 & F5 & F6).
  rewrite F1, F2, F3, F4, F5, F6.
  split; [exact Hb|]. split; [rewrite Hp, length_app; cbn; lia|].
  split; [|split].
  - unfold stripImages. rewrite imap_app, Hi, <- app_assoc. cbn.
    rewrite Hp, Nat.add_0_r. do 4 f_equal. lia.
  - apply chained_snoc, Hc.
  - unfold remainingAfter. rewrite fold_left_app. cbn.
    fold (remainingAfter H (slices st)). rewrite Hr. reflexivity.
Qed.

(** X13: whenever the pagination loop returns, in the arithmetic of the
    code: the first strip starts at the top of the canvas and each next
    one at the sum of the start and height of the one before, up to the
    cursor; what remains is the canvas height less the strip heights
    taken off in turn, and it is not positive; the breakpoint array is
    back in its recorded order; and the document has one page more per
    strip, strip [j] alone on page [j + 1] after the pages there were,
    at the top left of the printable area, as wide as it and its height
    times the ratio high. *)
Theorem strips_chain (fuel : nat) (bps : list float) (H m ratio : float)
    (pdf : Pdf) (st : ListState) :
  paginate fuel m ratio (listStart bps H pdf) = Some st ->
  chained 0 (slices st) (currentSrcY st) /\
  remainingSrcHeight st = remainingAfter H (slices st) /\
  (0 <? remainingSrcHeight st) = false /\
  rowBreakpoints st = bps /\
  pageCount (listPdf st) = (pageCount pdf + length (slices st))%nat /\
  images (listPdf st) = images pdf ++ stripImages pdf ratio (slices st).
Proof.
  intros Hrun.
  destruct (paginate_shape bps H m ratio pdf fuel _ _ Hrun)
    as ((Hb & Hp & Hi & Hc & Hr) & Hend).
  - cbn. rewrite app_nil_r. auto.
  - auto 7.
Qed.

Lemma strips_chain_witness :
  exists st,
    chained 0 (slices st) (currentSrcY st) /\
    remainingSrcHeight st = remainingAfter 3878 (slices st) /\
    (0 <? remainingSrcHeight st) = false /\
    rowBreakpoints st = recordBreakpoints 3878 1939 oneRow /\
    pageCount (listPdf st) = (pageCount newPdf + length (slices st))%nat /\
    images (listPdf st) =
      images newPdf ++ stripImages newPdf (canvasToPdfRatio 532) (slices st).
Proof.
  eexists.
  apply (strips_chain 7 (recordBreakpoints 3878 1939 oneRow) 3878
           (maxSrcHeightOf 532) (canvasToPdfRatio 532) newPdf).
  vm_compute. reflexivity.
Defined.

End PaginationMore.

(** ** Subject detection: further properties *)

Module SubjectMore.
Import Subject.

(** X17: however the provider call ends and whatever it answers,
    [detectSubject] returns a context whose subject is truthy, so never
    missing or empty; [handleStartGeneration] therefore always moves on
    to the confirmation step and never to [ERROR]. *)
Theorem detectSubject_subject_present (call : Completion JsValue) (log : list string) :
  exists ctx,
    (detectSubject call log).1 = Returned ctx /\
    truthy (subject ctx) = true /\
    (handleStartGeneration call log).1 = CONFIRMING.
Proof.
  unfold handleStartGeneration, detectSubject, detectBody.
  destruct call as [result|e]; [|eexists; cbn; auto].
  destruct (getProp result "subject") as [s|e]; [|eexists; cbn; auto].
  destruct (getProp result "isMath") as [im|e]; [|eexists; cbn; auto].
  eexists. cbn. split; [reflexivity|]. split; [|reflexivity].
  destruct (truthy s) eqn:E; [exact E | reflexivity].
Qed.

End SubjectMore.

(** ** The item pool of the provider *)

Module ItemsFacts.
Import Subject Items.

Lemma orFout_truthy (a : Json) : truthyJson (orFout a) = true.
Proof. unfold orFout. destruct (truthyJson a) eqn:E; [exact E | reflexivity]. Qed.

Lemma mapItems_spec (index : nat) (l : list Json) (pool : list RawItem) :
  mapItems index l = Returned pool ->
  length pool = length l /\
  (forall i it, pool !! i = Some it -> id it = "item-" +:+ pretty (index + i)%nat) /\
  (forall it, it ∈ pool ->
     truthyJson (problem it) = true /\ truthyJson (answer it) = true).
Proof.
  revert index pool. induction l as [|item l IH]; intros index pool; cbn [mapItems].
  - intros [= <-]. split; [reflexivity|]. split; [intros i it H; discriminate|].
    intros it H. inversion H.
  - destruct (getField item "problem") as [p|]; [|discriminate].
    destruct (getField item "answer") as [a|]; [|discriminate].
    destruct (mapItems (S index) l) as [r|] eqn:Er; [|discriminate].
    intros [= <-]. destruct (IH _ _ Er) as (Hlen & Hid & Htr).
    split; [cbn; lia|]. split.
    + intros [|i] it Hi; cbn in Hi.
      * injection Hi as <-. cbn. rewrite Nat.add_0_r. reflexivity.
      * rewrite (Hid _ _ Hi). do 2 f_equal. lia.
    + intros it Hin. apply elem_of_cons in Hin as [->|Hin]; [|exact (Htr _ Hin)].
      cbn. split; apply orFout_truthy.
Qed.

Lemma mapItemsGemini_spec (index : nat) (l : list Json) (pool : list RawItem) :
  mapItemsGemini index l = Returned pool ->
  length pool = length l /\
  (forall i it, pool !! i = Some it -> id it = "item-" +:+ pretty (index + i)%nat).
Proof.
  revert index pool. induction l as [|item l IH]; intros index pool; cbn [mapItemsGemini].
  - intros [= <-]. split; [reflexivity|]. intros i it H; discriminate.
  - destruct (getField item "problem") as [p|]; [|discriminate].
    destruct (getField item "answer") as [a|]; [|discriminate].
    destruct (mapItemsGemini (S index) l) as [r|] eqn:Er; [|discriminate].
    intros [= <-]. destruct (IH _ _ Er) as (Hlen & Hid).
    split; [cbn; lia|].
    intros [|i] it Hi; cbn in Hi.
    + injection Hi as <-. cbn. rewrite Nat.add_0_r. reflexivity.
    + rewrite (Hid _ _ Hi). do 2 f_equal. lia.
Qed.

(** Items numbered by their position have pairwise distinct
    identifiers. *)
Lemma numbered_NoDup (pool : list RawItem) :
  (forall i it, pool !! i = Some it -> id it = "item-" +:+ pretty i) ->
  NoDup (id <$> pool) /\ NoDup pool.
Proof.
  intros Hid.
  assert (Hnd : NoDup (id <$> pool)).
  { apply NoDup_alt. intros i j s Hi Hj.
    rewrite list_lookup_fmap in Hi, Hj.
    destruct (pool !! i) as [a|] eqn:Ea; [|discriminate].
    destruct (pool !! j) as [b|] eqn:Eb; [|discriminate].
    cbn in Hi, Hj. injection Hi as Hi. injection Hj as Hj.
    rewrite (Hid _ _ Ea) in Hi. rewrite (Hid _ _ Eb) in Hj.
    rewrite <- Hj in Hi. apply (inj (String.app "item-")) in Hi.
    apply (inj pretty) in Hi. exact Hi. }
  split; [exact Hnd | exact (NoDup_fmap_1 id pool Hnd)].
Qed.

(** X18: every pool the OpenRouter service returns is numbered: item
    [i] has the identifier "item-i", so the identifiers, and with them
    the items, are pairwise distinct; and no item has a missing or
    empty [problem] or [answer]. *)
Theorem pool_numbered (call : Completion Json) (log : list string)
    (pool : list RawItem) :
  (generateBingoItems call log).1 = Returned pool ->
  (forall i it, pool !! i = Some it -> id it = "item-" +:+ pretty i) /\
  NoDup (id <$> pool) /\ NoDup pool /\
  forall it, it ∈ pool ->
    truthyJson (problem it) = true /\ truthyJson (answer it) = true.
Proof.
  unfold generateBingoItems. destruct (itemsBody call) as [p|e] eqn:Eb; [|discriminate].
  cbn. intros [= ->].
  assert (Hmap : exists l, mapItems 0 l = Returned pool).
  { unfold itemsBody in Eb. destruct call as [rawData|]; [|discriminate].
    destruct rawData as [| | | | |l|fields]; cbn in Eb; try discriminate;
      try (exists []; exact Eb); try (exists l; exact Eb).
    destruct (truthyJson (fieldOf "items" fields)); [|exists []; exact Eb].
    destruct (fieldOf "items" fields) as [| | | | |l|]; try discriminate.
    exists l; exact Eb. }
  destruct Hmap as [l Hl]. destruct (mapItems_spec _ _ _ Hl) as (_ & Hid & Htr).
  split; [exact Hid|]. destruct (numbered_NoDup pool Hid) as [N1 N2]. auto.
Qed.

Lemma pool_numbered_witness :
  let pool := [{| id := "item-0"; problem := JsStr "2+2"; answer := JsStr "Fout" |}] in
  (forall i it, pool !! i = Some it -> id it = "item-" +:+ pretty i) /\
  NoDup (id <$> pool) /\ NoDup pool /\
  forall it, it ∈ pool ->
    truthyJson (problem it) = true /\ truthyJson (answer it) = true.
Proof.
  apply (pool_numbered
           (Returned (JsObj [("items"%string,
                              JsArr [JsObj [("problem"%string, JsStr "2+2")]])])) []).
  vm_compute. reflexivity.
Defined.

(** X19: the Gemini service numbers its pool the same way, so its
    items are pairwise distinct too; it returns one item per element of
    the answer. *)
Theorem pool_numbered_gemini (call : Completion Json) (log : list string)
    (pool : list RawItem) :
  (generateBingoItemsGemini call log).1 = Returned pool ->
  (exists l, call = Returned (JsArr l) /\ length pool = length l) /\
  (forall i it, pool !! i = Some it -> id it = "item-" +:+ pretty i) /\
  NoDup (id <$> pool) /\ NoDup pool.
Proof.
  unfold generateBingoItemsGemini.
  destruct call as [rawData|]; [|discriminate].
  destruct rawData as [| | | | |l|fields]; try discriminate.
  destruct (mapItemsGemini 0 l) as [p|] eqn:El; [|discriminate].
  cbn. intros [= ->]. destruct (mapItemsGemini_spec _ _ _ El) as (Hlen & Hid).
  split; [eauto|]. split; [exact Hid|]. exact (numbered_NoDup pool Hid).
Qed.

Lemma pool_numbered_gemini_witness :
  let pool := [{| id := "item-0"; problem := JsStr "2+2"; answer := JsUndefined |}] in
  (exists l, Returned (JsArr [JsObj [("problem"%string, JsStr "2+2")]]) = Returned (JsArr l) /\
             length pool = length l) /\
  (forall i it, pool !! i = Some it -> id it = "item-" +:+ pretty i) /\
  NoDup (id <$> pool) /\ NoDup pool.
Proof.
  apply (pool_numbered_gemini
           (Returned (JsArr [JsObj [("problem"%string, JsStr "2+2")]])) []).
  vm_compute. reflexivity.
Defined.

(** X20: an answer that is an array without [null] elements is kept
    whole by the OpenRouter service: one item per element, in order. *)
Theorem array_answer_kept (l : list Json) (log : list string) :
  Forall (fun j => j <> JsNull /\ j <> JsUndefined) l ->
  exists pool,
    generateBingoItems (Returned (JsArr l)) log = (Returned pool, log) /\
    length pool = length l.
Proof.
  intros Hl. unfold generateBingoItems, itemsBody.
  assert (Hmap : forall index, exists pool, mapItems index l = Returned pool).
  { induction Hl as [|j l [Hn Hu] _ IH]; intros index; cbn [mapItems]; [eauto|].
    destruct (IH (S index)) as [r ->].
    destruct j; try congruence; cbn; eauto. }
  destruct (Hmap 0%nat) as [pool Hp]. rewrite Hp. exists pool.
  split; [reflexivity|]. exact (proj1 (mapItems_spec _ _ _ Hp)).
Qed.

Lemma array_answer_kept_witness :
  exists pool,
    generateBingoItems (Returned (JsArr [JsObj []; JsStr "x"])) [] = (Returned pool, []) /\
    length pool = length [JsObj []; JsStr "x"].
Proof.
  apply (array_answer_kept [JsObj []; JsStr "x"] []).
  repeat constructor; discriminate.
Defined.

Lemma mapItems_null (index : nat) (l : list Json) :
  (JsNull ∈ l \/ JsUndefined ∈ l) -> exists e, mapItems index l = Thrown e.
Proof.
  revert index. induction l as [|item l IH]; intros index Hin.
  - destruct Hin as [H|H]; inversion H.
  - cbn [mapItems].
    destruct (getField item "problem") as [p|e] eqn:Ep; [|eauto].
    destruct (getField item "answer") as [a|e] eqn:Ea; [|eauto].
    assert (Hrest : JsNull ∈ l \/ JsUndefined ∈ l).
    { destruct Hin as [H|H]; apply elem_of_cons in H as [<-|H]; auto; discriminate. }
    destruct (IH (S index) Hrest) as [e ->]. eauto.
Qed.

(** X21: [generateBingoItems] turns every failure into the same error
    for its caller and logs the cause once: a failed call, a [null]
    answer, an [items] value that is truthy but no array, and an array,
    given directly or as [items], with a [null] element; but an answer
    object without a truthy [items] field is no failure: it yields the
    empty pool and logs nothing. *)
Theorem pool_failures (call : Completion Json) (log : list string) :
  (forall e, (generateBingoItems call log).1 = Thrown e ->
     e = itemsError /\ length (generateBingoItems call log).2 = S (length log)) /\
  (forall e, call = Thrown e ->
     (generateBingoItems call log).1 = Thrown itemsError) /\
  (call = Returned JsNull ->
     (generateBingoItems call log).1 = Thrown itemsError) /\
  (forall fields, call = Returned (JsObj fields) ->
     truthyJson (fieldOf "items" fields) = true ->
     (forall l, fieldOf "items" fields <> JsArr l) ->
     (generateBingoItems call log).1 = Thrown itemsError) /\
  (forall l, call = Returned (JsArr l) -> JsNull ∈ l ->
     (generateBingoItems call log).1 = Thrown itemsError) /\
  (forall fields l, call = Returned (JsObj fields) ->
     fieldOf "items" fields = JsArr l -> JsNull ∈ l ->
     (generateBingoItems call log).1 = Thrown itemsError) /\
  (forall fields, call = Returned (JsObj fields) ->
     truthyJson (fieldOf "items" fields) = false ->
     generateBingoItems call log = (Returned [], log)).
Proof.
  split; [|split; [|split; [|split; [|split; [|split]]]]].
  - unfold generateBingoItems. intros e. destruct (itemsBody call); [discriminate|].
    cbn. intros [= <-]. split; [reflexivity|]. rewrite length_app. cbn. lia.
  - intros e ->. reflexivity.
  - intros ->. reflexivity.
  - intros fields -> Ht Hna. unfold generateBingoItems, itemsBody. cbn.
    rewrite Ht. destruct (fieldOf "items" fields) as [| | | | |l|]; try reflexivity.
    exfalso. exact (Hna l eq_refl).
  - intros l -> Hin. unfold generateBingoItems, itemsBody.
    destruct (mapItems_null 0 l (or_introl Hin)) as [e ->]. reflexivity.
  - intros fields l -> Hf Hin. unfold generateBingoItems, itemsBody. cbn.
    rewrite Hf. cbn. destruct (mapItems_null 0 l (or_introl Hin)) as [e ->]. reflexivity.
  - intros fields -> Hf. unfold generateBingoItems, itemsBody. cbn.
    rewrite Hf. reflexivity.
Qed.

End ItemsFacts.

(** ** The name of the exported file *)

Module FileNameFacts.
Import FileName.

Lemma isAlnum_underscore : isAlnum underscore = false.
Proof. reflexivity. Qed.

(** X22: the subject put into the file name keeps its length and its
    letters and digits and has an underscore wherever something else
    stood, so it consists of letters, digits and underscores only;
    cleaning it again changes nothing. *)
Theorem sanitize_safe (subject : list N) :
  length (sanitize subject) = length subject /\
  (forall i c, subject !! i = Some c ->
     sanitize subject !! i = Some (if isAlnum c then c else underscore)) /\
  Forall (fun c => isAlnum c = true \/ c = underscore) (sanitize subject) /\
  sanitize (sanitize subject) = sanitize subject.
Proof.
  unfold sanitize. split; [apply length_fmap|]. split; [|split].
  - intros i c Hi. rewrite list_lookup_fmap, Hi. reflexivity.
  - apply Forall_fmap, Forall_forall. intros c _. cbn.
    destruct (isAlnum c) eqn:E; [left; exact E | right; reflexivity].
  - rewrite <- list_fmap_compose. apply list_fmap_ext. intros i c _. cbn.
    destruct (isAlnum c) eqn:E; [rewrite E; reflexivity | reflexivity].
Qed.

End FileNameFacts.
